(** * A shallow embedding of the default-qubit plxpr interpreter

    Source files embedded here:
    - [pennylane/devices/qubit/dq_interpreter.py]
      (class [DefaultQubitInterpreter] and its registered primitive handlers);
    - [pennylane/ops/functions/map_wires.py] (function [map_wires]).

    The interpreter is effectful Python: it mutates a dictionary shared by
    reference between interpreter objects, toggles a process-wide capture
    switch and raises exceptions.  It is embedded as a state-and-exception
    monad over an explicit store of dictionaries. *)

From Stdlib Require Import ZArith Lia.
From stdpp Require Import gmap strings list.

Local Open Scope Z_scope.
Set Warnings "-register-all".

(** ** Python exceptions and results *)

Inductive Exn : Type :=
| AttributeError (msg : string)
| NotImplementedError (msg : string)
| ValueError
| TypeError
| KeyError
| IndexError
| UnboundVariable
| CollaboratorError (code : nat)
| StoreFault.

(** What a collaborator call produces: a value or an exception. *)
Inductive Result (A : Type) : Type :=
| Ok (a : A)
| Raise (e : Exn).
Arguments Ok {A} a.
Arguments Raise {A} e.

(** What an interpreter call produces: additionally, a [while] loop of the
    source may not terminate; the embedding runs on fuel. *)
Inductive Outcome (A : Type) : Type :=
| Returns (a : A)
| Raises (e : Exn)
| Diverges.
Arguments Returns {A} a.
Arguments Raises {A} e.
Arguments Diverges {A}.

(** ** Python slices and ranges *)

(** [slice(start, stop)] with non-negative bounds; [stop = None] runs to the
    end of the sequence. *)
Record Slice : Type := MkSlice { sl_start : nat; sl_stop : option nat }.

(** [seq[sl]] on a tuple. *)
Definition slice_of {A : Type} (l : list A) (sl : Slice) : list A :=
  match sl_stop sl with
  | Some b => take (b - sl_start sl)%nat (drop (sl_start sl) l)
  | None => drop (sl_start sl) l
  end.

(** [len(range(start, stop, step))] for a non-zero step, as CPython computes
    it. *)
Definition range_len (start stop step : Z) : Z :=
  if 0 <? step then
    if start <? stop then (stop - start - 1) / step + 1 else 0
  else if step <? 0 then
    if stop <? start then (start - stop - 1) / (- step) + 1 else 0
  else 0.

(** The elements of [range(start, stop, step)], [step] non-zero. *)
Definition range_elems (start stop step : Z) : list Z :=
  (fun k : nat => start + Z.of_nat k * step) <$>
    seq 0 (Z.to_nat (range_len start stop step)).

(** [range(start, stop, step)] on Python ints: a zero step raises
    [ValueError]. *)
Definition py_range (start stop step : Z) : Result (list Z) :=
  if step =? 0 then Raise ValueError else Ok (range_elems start stop step).

(** ** The state-and-exception monad *)

Section Monad.
Context {S : Type}.

Definition Eff (A : Type) : Type := S -> S * Outcome A.

Definition ret {A} (a : A) : Eff A := fun s => (s, Returns a).
Definition raise {A} (e : Exn) : Eff A := fun s => (s, Raises e).
Definition diverge {A} : Eff A := fun s => (s, Diverges).
Definition bind {A B} (m : Eff A) (k : A -> Eff B) : Eff B :=
  fun s =>
    match m s with
    | (s', Returns a) => k a s'
    | (s', Raises e) => (s', Raises e)
    | (s', Diverges) => (s', Diverges)
    end.
Definition lift {A} (r : Result A) : Eff A :=
  match r with Ok a => ret a | Raise e => raise e end.
Definition get : Eff S := fun s => (s, Returns s).
Definition put (s : S) : Eff unit := fun _ => (s, Returns tt).

(** [try: m finally: fin] *)
Definition try_finally {A} (m : Eff A) (fin : Eff unit) : Eff A :=
  fun s =>
    match m s with
    | (s1, Diverges) => (s1, Diverges)
    | (s1, r) =>
        match fin s1 with
        | (s2, Returns _) => (s2, r)
        | (s2, Raises e) => (s2, Raises e)
        | (s2, Diverges) => (s2, Diverges)
        end
    end.
End Monad.
Arguments Eff S A : clear implicits.

Notation "x <- m ;; k" := (bind m (fun x => k))
  (at level 100, m at next level, right associativity).
Notation "m ;;; k" := (bind m (fun _ => k))
  (at level 100, right associativity).

Section Interpreter.

(** Numeric arrays (jax arrays), the quantum state tensor and the PRNG key
    are opaque to the interpreter. *)
Context {Arr State Key : Type}.

(** ** Values *)

Inductive Val : Type :=
| VNone
| VBool (b : bool)
| VInt (z : Z)
| VArr (a : Arr).

(** [__index__] and [__bool__] of an array: defined on scalar arrays
    only. *)
Variable arr_index : Arr -> option Z.
Variable arr_bool : Arr -> option bool.

(** [operator.index(v)], as [range] applies it to its arguments. *)
Definition as_index (v : Val) : Result Z :=
  match v with
  | VInt z => Ok z
  | VBool b => Ok (if b then 1 else 0)
  | VArr a => match arr_index a with Some z => Ok z | None => Raise TypeError end
  | VNone => Raise TypeError
  end.

(** [bool(v)], as [if] and [while] apply it. *)
Definition truth (v : Val) : Result bool :=
  match v with
  | VNone => Ok false
  | VBool b => Ok b
  | VInt z => Ok (negb (z =? 0))
  | VArr a => match arr_bool a with Some b => Ok b | None => Raise ValueError end
  end.

(** ** Operators and measurement processes *)

Record Operator : Type := MkOp { op_name : string; op_args : list Val }.
Record MeasurementProcess : Type := MkMP { mp_name : string; mp_args : list Val }.
(** [MidMeasureMP(wires, reset=..., postselect=...)] *)
Record MidMeasureMP : Type :=
  MkMidMeasure { mm_wires : list Val; mm_reset : bool; mm_postselect : option Z }.

(** [Shots(shots)]: [None] is analytic, otherwise a positive count.
    [bool(Shots)] is true exactly when a count is set. *)
Definition Shots : Type := option positive.

(** ** Collaborators (imported by the module, defined elsewhere) *)

(** [create_initial_state(range(num_wires), like="jax")] *)
Variable create_initial_state : nat -> State.
(** [apply_operation(op, state)]; the state may be [None]. *)
Variable apply_operation : Operator -> option State -> Result State.
(** [apply_operation(mp, state, mid_measurements=mcms, prng_key=key)]:
    the new state together with [mcms.get(mp)] as left in the sink. *)
Variable apply_mid_measure :
  MidMeasureMP -> option State -> Key -> Result (State * option Val).
(** [jax.random.split(key, 2)] *)
Variable split : Key -> Key * Key.
(** [measure(measurement, state)] and
    [measure_with_samples(mps, state, shots=, prng_key=)]; both read the
    process-wide capture switch, passed here as their first argument. *)
Variable measure : bool -> MeasurementProcess -> option State -> Result Val.
Variable measure_with_samples :
  bool -> list MeasurementProcess -> option State -> positive -> Key ->
  Result (list Val).

(** ** The interpreter object, the store and the monad *)

(** The dictionary [{"state": ..., "key": ...}] that [stateref] refers to. *)
Record Box : Type := MkBox { box_state : State; box_key : Key }.

(** The attributes of a [DefaultQubitInterpreter] object.  [stateref] is a
    reference into the store of dictionaries, or [None]. *)
Record Interp : Type := MkInterp {
  num_wires : nat;
  shots : Shots;
  initial_key : Key;
  stateref : option nat
}.

(** [copy(self)]: a new object with the same attribute values; the
    dictionary behind [stateref] is not duplicated. *)
Definition copy (i : Interp) : Interp :=
  {| num_wires := num_wires i; shots := shots i;
     initial_key := initial_key i; stateref := stateref i |}.

(** Machine state: the interpreter object bound to [self], the store of
    dictionaries ever allocated, and the capture switch of
    [pennylane.capture]. *)
Record St : Type := MkSt {
  self : Interp;
  heap : list Box;
  capture_enabled : bool
}.

(** Modelled from the spec: [pennylane.capture.disable] and [enable], the
    ambient interception switch of section 4.3, as a process-wide flag. *)
Definition disable : Eff St unit :=
  fun s => ({| self := self s; heap := heap s; capture_enabled := false |}, Returns tt).
Definition enable : Eff St unit :=
  fun s => ({| self := self s; heap := heap s; capture_enabled := true |}, Returns tt).

(** The dictionary [self.stateref] denotes.  A Python reference always
    denotes a live object; the store never frees, so the [StoreFault]
    branch is never taken from a well-formed state. *)
Definition deref (l : nat) : Eff St Box :=
  fun s => match heap s !! l with
           | Some b => (s, Returns b)
           | None => (s, Raises StoreFault)
           end.

(** [DefaultQubitInterpreter.state] (getter); a dictionary with its two
    entries is truthy, so [if self.stateref] tests for [None]. *)
Definition get_state : Eff St (option State) :=
  s <- get ;;
  match stateref (self s) with
  | Some l => b <- deref l ;; ret (Some (box_state b))
  | None => ret None
  end.

(** [DefaultQubitInterpreter.state] (setter) *)
Definition set_state (value : State) : Eff St unit :=
  s <- get ;;
  match stateref (self s) with
  | None => raise (AttributeError "execution not yet initialized."%string)
  | Some l =>
      b <- deref l ;;
      put {| self := self s;
             heap := <[l := {| box_state := value; box_key := box_key b |}]> (heap s);
             capture_enabled := capture_enabled s |}
  end.

(** [DefaultQubitInterpreter.key] (getter) *)
Definition get_key : Eff St Key :=
  s <- get ;;
  match stateref (self s) with
  | Some l => b <- deref l ;; ret (box_key b)
  | None => ret (initial_key (self s))
  end.

(** [DefaultQubitInterpreter.key] (setter) *)
Definition set_key (value : Key) : Eff St unit :=
  s <- get ;;
  match stateref (self s) with
  | None => raise (AttributeError "execution not yet initialized."%string)
  | Some l =>
      b <- deref l ;;
      put {| self := self s;
             heap := <[l := {| box_state := box_state b; box_key := value |}]> (heap s);
             capture_enabled := capture_enabled s |}
  end.

(** [DefaultQubitInterpreter.setup] *)
Definition setup : Eff St unit :=
  s <- get ;;
  match stateref (self s) with
  | None =>
      put {| self := {| num_wires := num_wires (self s);
                        shots := shots (self s);
                        initial_key := initial_key (self s);
                        stateref := Some (length (heap s)) |};
             heap := heap s ++
                       [{| box_state := create_initial_state (num_wires (self s));
                           box_key := initial_key (self s) |}];
             capture_enabled := capture_enabled s |}
  | Some _ => ret tt
  end.

(** [DefaultQubitInterpreter.cleanup] *)
Definition cleanup : Eff St unit :=
  k <- get_key ;;
  s <- get ;;
  put {| self := {| num_wires := num_wires (self s);
                    shots := shots (self s);
                    initial_key := k;
                    stateref := None |};
         heap := heap s;
         capture_enabled := capture_enabled s |}.

(** [DefaultQubitInterpreter.interpret_operation] *)
Definition interpret_operation (op : Operator) : Eff St unit :=
  st <- get_state ;;
  st' <- lift (apply_operation op st) ;;
  set_state st'.

(** [seq[0]] *)
Definition item0 {A} (l : list A) : Result A :=
  match l with x :: _ => Ok x | [] => Raise IndexError end.

(** [DefaultQubitInterpreter.interpret_measurement] *)
Definition interpret_measurement (measurement : MeasurementProcess) : Eff St Val :=
  disable ;;;
  try_finally
    (s <- get ;;
     match shots (self s) with
     | Some n =>
         k <- get_key ;;
         set_key (fst (split k)) ;;;
         st <- get_state ;;
         c <- get ;;
         out <- lift (measure_with_samples (capture_enabled c) [measurement] st n
                        (snd (split k))) ;;
         lift (item0 out)
     | None =>
         st <- get_state ;;
         c <- get ;;
         lift (measure (capture_enabled c) measurement st)
     end)
    enable.

(** The handler registered for [measure_prim]. *)
Definition measure_prim_handler
    (invals : list Val) (reset : bool) (postselect : option Z) : Eff St Val :=
  let mp := {| mm_wires := invals; mm_reset := reset; mm_postselect := postselect |} in
  k <- get_key ;;
  set_key (fst (split k)) ;;;
  st <- get_state ;;
  r <- lift (apply_mid_measure mp st (snd (split k))) ;;
  set_state (fst r) ;;;
  match snd r with
  | Some outcome => ret outcome
  | None => raise KeyError
  end.

(** ** Programs (jaxprs) *)

Definition Var : Type := nat.

Inductive Atom : Type :=
| AVar (x : Var)
| ALit (v : Val).

Inductive Jaxpr : Type :=
| MkJaxpr (constvars invars : list Var) (eqns : list Eqn) (outvars : list Atom)
with Eqn : Type :=
| MkEqn (primitive : Primitive) (eqn_invars : list Atom) (eqn_outvars : list Var)
with Primitive : Type :=
| operator_prim (name : string)
| measurement_prim (name : string)
| classical_prim (impl : list Val -> Result (list Val))
| measure_prim (reset : bool) (postselect : option Z)
| adjoint_transform_prim (jaxpr : Jaxpr) (n_consts : nat) (lazy : bool)
| ctrl_transform_prim (n_control : nat) (jaxpr : Jaxpr) (control_values : list bool)
    (work_wires : list Val) (n_consts : nat)
| for_loop_prim (jaxpr_body_fn : Jaxpr) (consts_slice args_slice : Slice)
| while_loop_prim (jaxpr_body_fn jaxpr_cond_fn : Jaxpr)
    (body_slice cond_slice args_slice : Slice)
| cond_prim (jaxpr_branches : list (option Jaxpr)) (consts_slices : list Slice)
    (args_slice : Slice).

Definition constvars (j : Jaxpr) : list Var := let 'MkJaxpr c _ _ _ := j in c.
Definition invars (j : Jaxpr) : list Var := let 'MkJaxpr _ i _ _ := j in i.
Definition eqns (j : Jaxpr) : list Eqn := let 'MkJaxpr _ _ e _ := j in e.
Definition outvars (j : Jaxpr) : list Atom := let 'MkJaxpr _ _ _ o := j in o.

(** ** The registered control-flow handlers

    Each handler runs [copy(self).eval(...)]; [eval] is a method of the
    base class, tied in below. *)
Section Handlers.

(** [self.eval(jaxpr, consts, *args)] *)
Variable eval_rec : Jaxpr -> list Val -> list Val -> Eff St (list Val).

(** [copy(self).eval(jaxpr, consts, *args)]: the callee runs with the
    copy bound to [self]; the caller then goes on with its own object and
    with the store as the callee left it. *)
Definition copy_eval (jaxpr : Jaxpr) (consts args : list Val) : Eff St (list Val) :=
  fun s =>
    let '(s', r) := eval_rec jaxpr consts args
                      {| self := copy (self s); heap := heap s;
                         capture_enabled := capture_enabled s |} in
    ({| self := self s; heap := heap s'; capture_enabled := capture_enabled s' |}, r).

(** The body of the [for] statement of the [for_loop_prim] handler, over
    the elements of the range still to visit. *)
Fixpoint for_loop_iter (jaxpr_body_fn : Jaxpr) (consts : list Val)
    (rng : list Z) (res : list Val) : Eff St (list Val) :=
  match rng with
  | [] => ret res
  | i :: rng' =>
      res' <- copy_eval jaxpr_body_fn consts (VInt i :: res) ;;
      for_loop_iter jaxpr_body_fn consts rng' res'
  end.

(** The handler registered for [for_loop_prim]. *)
Definition for_loop_prim_handler (start stop step : Val) (invals : list Val)
    (jaxpr_body_fn : Jaxpr) (consts_slice args_slice : Slice) : Eff St (list Val) :=
  let consts := slice_of invals consts_slice in
  let init_state := slice_of invals args_slice in
  a <- lift (as_index start) ;;
  b <- lift (as_index stop) ;;
  c <- lift (as_index step) ;;
  rng <- lift (py_range a b c) ;;
  for_loop_iter jaxpr_body_fn consts rng init_state.

(** The [while] statement of the [while_loop_prim] handler; [fuel] bounds
    the number of times the condition is tested. *)
Fixpoint while_loop_iter (fuel : nat) (jaxpr_body_fn jaxpr_cond_fn : Jaxpr)
    (consts_body consts_cond : list Val) (fn_res : list Val) : Eff St (list Val) :=
  match fuel with
  | O => diverge
  | S fuel' =>
      c <- copy_eval jaxpr_cond_fn consts_cond fn_res ;;
      c0 <- lift (item0 c) ;;
      t <- lift (truth c0) ;;
      if t : bool then
        fn_res' <- copy_eval jaxpr_body_fn consts_body fn_res ;;
        while_loop_iter fuel' jaxpr_body_fn jaxpr_cond_fn consts_body consts_cond fn_res'
      else ret fn_res
  end.

(** The handler registered for [while_loop_prim]. *)
Definition while_loop_prim_handler (fuel : nat) (invals : list Val)
    (jaxpr_body_fn jaxpr_cond_fn : Jaxpr) (body_slice cond_slice args_slice : Slice)
    : Eff St (list Val) :=
  let consts_body := slice_of invals body_slice in
  let consts_cond := slice_of invals cond_slice in
  let init_state := slice_of invals args_slice in
  while_loop_iter fuel jaxpr_body_fn jaxpr_cond_fn consts_body consts_cond init_state.

(** The [for] statement of the [cond_prim] handler, over the zipped
    triples still to visit. *)
Fixpoint cond_iter (invals args : list Val)
    (branches : list (Val * option Jaxpr * Slice)) : Eff St (list Val) :=
  match branches with
  | [] => ret []
  | (pred, jaxpr, const_slice) :: branches' =>
      let consts := slice_of invals const_slice in
      t <- lift (truth pred) ;;
      match t, jaxpr with
      | true, Some j => copy_eval j consts args
      | _, _ => cond_iter invals args branches'
      end
  end.

(** The handler registered for [cond_prim]. *)
Definition cond_prim_handler (invals : list Val)
    (jaxpr_branches : list (option Jaxpr)) (consts_slices : list Slice)
    (args_slice : Slice) : Eff St (list Val) :=
  let n_branches := length jaxpr_branches in
  let conditions := take n_branches invals in
  let args := slice_of invals args_slice in
  cond_iter invals args (zip (zip conditions jaxpr_branches) consts_slices).

End Handlers.

(** The handlers registered for [adjoint_transform_prim] and
    [ctrl_transform_prim]. *)
Definition adjoint_transform_prim_handler (invals : list Val) : Eff St (list Val) :=
  raise (NotImplementedError ""%string).
Definition ctrl_transform_prim_handler (invals : list Val) : Eff St (list Val) :=
  raise (NotImplementedError ""%string).

(** ** The core evaluator *)

(** [sub in name] on strings. *)
Definition contains (sub name : string) : bool :=
  match String.index 0 sub name with Some _ => true | None => false end.

(** Modelled from the spec: the Environment of section 3 and the reading
    of an input reference of section 4.1 (the base class [PlxprInterpreter]
    is not among the source files): a literal is its value, a variable is
    looked up and an unbound one fails. *)
Definition read (env : gmap Var Val) (a : Atom) : Result Val :=
  match a with
  | ALit v => Ok v
  | AVar x => match env !! x with Some v => Ok v | None => Raise UnboundVariable end
  end.

Fixpoint read_all (env : gmap Var Val) (l : list Atom) : Result (list Val) :=
  match l with
  | [] => Ok []
  | a :: l' =>
      match read env a with
      | Raise e => Raise e
      | Ok v => match read_all env l' with
                | Raise e => Raise e
                | Ok vs => Ok (v :: vs)
                end
      end
  end.

(** Modelled from the spec: binding values to declared variables
    (section 4.1); an arity mismatch is an error. *)
Fixpoint bind_vars (env : gmap Var Val) (xs : list Var) (vs : list Val)
    : Result (gmap Var Val) :=
  match xs, vs with
  | [], [] => Ok env
  | x :: xs', v :: vs' => bind_vars (<[x := v]> env) xs' vs'
  | _, _ => Raise ValueError
  end.

(** [DefaultQubitInterpreter.interpret_measurement_eqn]; the call to the
    base class method builds the measurement from the resolved inputs and
    hands it to [interpret_measurement]. *)
Definition interpret_measurement_eqn (name : string) (env : gmap Var Val)
    (ins : list Atom) : Eff St Val :=
  if contains "mcm" name then
    raise (NotImplementedError
             "DefaultQubitInterpreter does not yet support postprocessing mcms"%string)
  else
    invals <- lift (read_all env ins) ;;
    interpret_measurement {| mp_name := name; mp_args := invals |}.

Section Equations.

Variable eval_rec : Jaxpr -> list Val -> list Val -> Eff St (list Val).
Variable fuel : nat.

(** Modelled from the spec: one equation of section 4.1: resolve the
    inputs, run the operation, the terminal measurement or the registered
    handler, bind the outputs. *)
Definition eval_eqn (env : gmap Var Val) (e : Eqn) : Eff St (gmap Var Val) :=
  let 'MkEqn prim ins outs := e in
  match prim with
  | operator_prim name =>
      invals <- lift (read_all env ins) ;;
      interpret_operation {| op_name := name; op_args := invals |} ;;;
      ret env
  | measurement_prim name =>
      v <- interpret_measurement_eqn name env ins ;;
      lift (bind_vars env outs [v])
  | classical_prim impl =>
      invals <- lift (read_all env ins) ;;
      outvals <- lift (impl invals) ;;
      lift (bind_vars env outs outvals)
  | measure_prim reset postselect =>
      invals <- lift (read_all env ins) ;;
      v <- measure_prim_handler invals reset postselect ;;
      lift (bind_vars env outs [v])
  | adjoint_transform_prim _ _ _ =>
      invals <- lift (read_all env ins) ;;
      outvals <- adjoint_transform_prim_handler invals ;;
      lift (bind_vars env outs outvals)
  | ctrl_transform_prim _ _ _ _ _ =>
      invals <- lift (read_all env ins) ;;
      outvals <- ctrl_transform_prim_handler invals ;;
      lift (bind_vars env outs outvals)
  | for_loop_prim jaxpr_body_fn consts_slice args_slice =>
      invals <- lift (read_all env ins) ;;
      match invals with
      | start :: stop :: step :: invals' =>
          outvals <- for_loop_prim_handler eval_rec start stop step invals'
                       jaxpr_body_fn consts_slice args_slice ;;
          lift (bind_vars env outs outvals)
      | _ => raise TypeError
      end
  | while_loop_prim jaxpr_body_fn jaxpr_cond_fn body_slice cond_slice args_slice =>
      invals <- lift (read_all env ins) ;;
      outvals <- while_loop_prim_handler eval_rec fuel invals jaxpr_body_fn
                   jaxpr_cond_fn body_slice cond_slice args_slice ;;
      lift (bind_vars env outs outvals)
  | cond_prim jaxpr_branches consts_slices args_slice =>
      invals <- lift (read_all env ins) ;;
      outvals <- cond_prim_handler eval_rec invals jaxpr_branches consts_slices
                   args_slice ;;
      lift (bind_vars env outs outvals)
  end.

(** Equations run in declaration order. *)
Fixpoint eval_eqns (env : gmap Var Val) (es : list Eqn) : Eff St (gmap Var Val) :=
  match es with
  | [] => ret env
  | e :: es' => env' <- eval_eqn env e ;; eval_eqns env' es'
  end.

End Equations.

(** Modelled from the spec: the Core Evaluator of section 4.1
    ([PlxprInterpreter.eval]): set up, bind constants and arguments in a
    fresh environment, run the equations, read the outputs, clean up.
    A failure propagates at once; nothing is rolled back (section 7).
    [fuel] bounds the nesting depth and the trips of each [while]. *)
Fixpoint eval (fuel : nat) (jaxpr : Jaxpr) (consts args : list Val)
    : Eff St (list Val) :=
  match fuel with
  | O => diverge
  | S fuel' =>
      setup ;;;
      env0 <- lift (bind_vars ∅ (constvars jaxpr) consts) ;;
      env1 <- lift (bind_vars env0 (invars jaxpr) args) ;;
      env2 <- eval_eqns (eval fuel') fuel' env1 (eqns jaxpr) ;;
      outs <- lift (read_all env2 (outvars jaxpr)) ;;
      cleanup ;;;
      ret outs
  end.

(** ** Vocabulary of the properties proved below *)

(** The state with another interpreter object bound to [self]. *)
Definition with_self (i : Interp) (s : St) : St :=
  {| self := i; heap := heap s; capture_enabled := capture_enabled s |}.

(** From [s] to [s'] no dictionary was created and none but the one at [l]
    was written. *)
Definition same_store (l : nat) (s s' : St) : Prop :=
  length (heap s') = length (heap s) /\
  forall l', l' <> l -> heap s' !! l' = heap s !! l'.

(** Moreover the interpreter object is as it was. *)
Definition same_frame (l : nat) (s s' : St) : Prop :=
  self s' = self s /\ same_store l s s'.

(** A computation started in a frame that refers to [l] keeps that frame. *)
Definition keeps {A} (l : nat) (m : Eff St A) : Prop :=
  forall s s' r, stateref (self s) = Some l -> m s = (s', r) -> same_frame l s s'.

(** A computation started in a frame that refers to [l] keeps the store's
    shape, whatever it does to the interpreter object. *)
Definition keeps_store {A} (l : nat) (m : Eff St A) : Prop :=
  forall s s' r, stateref (self s) = Some l -> m s = (s', r) -> same_store l s s'.

(** An evaluator that, entered in a frame that refers to [l], creates no
    dictionary and writes to none but the one at [l]. *)
Definition child_ok (l : nat)
    (ev : Jaxpr -> list Val -> list Val -> Eff St (list Val)) : Prop :=
  forall j c a, keeps_store l (ev j c a).

(** [ev], refusing to run in a frame that does not refer to [l]. *)
Definition on_box (l : nat)
    (ev : Jaxpr -> list Val -> list Val -> Eff St (list Val))
    : Jaxpr -> list Val -> list Val -> Eff St (list Val) :=
  fun j c a s =>
    if decide (stateref (self s) = Some l) then ev j c a s
    else (s, Raises StoreFault).

(** The interpreter object [cleanup] leaves behind. *)
Definition detached (i : Interp) (k : Key) : Interp :=
  {| num_wires := num_wires i; shots := shots i; initial_key := k; stateref := None |}.

(** The interpreter object and the store [setup] leaves behind when no
    dictionary is attached. *)
Definition attached (s : St) : St :=
  {| self := {| num_wires := num_wires (self s); shots := shots (self s);
                initial_key := initial_key (self s);
                stateref := Some (length (heap s)) |};
     heap := heap s ++ [{| box_state := create_initial_state (num_wires (self s));
                           box_key := initial_key (self s) |}];
     capture_enabled := capture_enabled s |}.

(** The loop test of "for [i] from [start] to [stop] (exclusive) in steps
    of [step]": counting up, [i] is still below [stop]; counting down, still
    above. *)
Definition before_stop (i stop step : Z) : bool :=
  if 0 <? step then i <? stop else stop <? i.

(** The classical iteration the bounded loop is compared with, written
    after the spec: test, run the body on the index and the carried
    arguments, step the index, repeat; at most [n] trips. *)
Fixpoint classical_iteration (n : nat) (i stop step : Z)
    (body : Z -> list Val -> Eff St (list Val)) (carried : list Val)
    : Eff St (list Val) :=
  match n with
  | O => ret carried
  | S n' =>
      if before_stop i stop step then
        carried' <- body i carried ;;
        classical_iteration n' (i + step) stop step body carried'
      else ret carried
  end.

(** The state with the dictionary at [l] replaced. *)
Definition set_box (s : St) (l : nat) (b : Box) : St :=
  {| self := self s; heap := <[l := b]> (heap s);
     capture_enabled := capture_enabled s |}.

(** The key the dictionary holds after [i] draws from seed [k], and the
    key the [i]-th draw samples with. *)
Fixpoint stream_key (k : Key) (i : nat) : Key :=
  match i with
  | O => k
  | S i' => fst (split (stream_key k i'))
  end.

Definition draw_key (k : Key) (i : nat) : Key := snd (split (stream_key k i)).

(** The key reached from [k] along a path of splits ([false]: first half,
    [true]: second half), and a seed from which no two paths meet. *)
Fixpoint derive (k : Key) (path : list bool) : Key :=
  match path with
  | [] => k
  | h :: path' => derive (if h then snd (split k) else fst (split k)) path'
  end.

Definition collision_free (k : Key) : Prop :=
  forall p q, derive k p = derive k q -> p = q.

(** Successive [measure_prim] equations of one frame. *)
Fixpoint measure_each (mps : list (list Val * bool * option Z)) : Eff St (list Val) :=
  match mps with
  | [] => ret []
  | (invals, reset, postselect) :: mps' =>
      v <- measure_prim_handler invals reset postselect ;;
      vs <- measure_each mps' ;;
      ret (v :: vs)
  end.

(** What the state and the seed determine: the outcomes of successive
    measurements, the [i]-th sampled with [draw_key k i], and the
    dictionary they leave. *)
Fixpoint expected_outcomes (k : Key) (i : nat) (st : State)
    (mps : list (list Val * bool * option Z)) : Box * Outcome (list Val) :=
  match mps with
  | [] => ({| box_state := st; box_key := stream_key k i |}, Returns [])
  | (invals, reset, postselect) :: mps' =>
      match apply_mid_measure
              {| mm_wires := invals; mm_reset := reset; mm_postselect := postselect |}
              (Some st) (draw_key k i) with
      | Raise e => ({| box_state := st; box_key := stream_key k (S i) |}, Raises e)
      | Ok (st', None) =>
          ({| box_state := st'; box_key := stream_key k (S i) |}, Raises KeyError)
      | Ok (st', Some v) =>
          match expected_outcomes k (S i) st' mps' with
          | (b', Returns vs) => (b', Returns (v :: vs))
          | (b', o) => (b', o)
          end
      end
  end.

(** A (predicate, body, constants) triple the handler passes over: the
    predicate is false, or it is true and the body is absent. *)
Definition passed_over (br : Val * option Jaxpr * Slice) : Prop :=
  truth br.1.1 = Ok false \/ (truth br.1.1 = Ok true /\ br.1.2 = None).

(** A collaborator's result as the outcome of the call. *)
Definition outcome_of {A} (r : Result A) : Outcome A :=
  match r with Ok a => Returns a | Raise e => Raises e end.

(** The state with the capture switch on. *)
Definition enabled (s : St) : St :=
  {| self := self s; heap := heap s; capture_enabled := true |}.

(** What a shot-based terminal measurement returns: the first element of
    the batch the sampling engine [mws] draws for this measurement alone. *)
Definition sampled
    (mws : bool -> list (MeasurementProcess) -> option State -> positive -> Key ->
           Result (list Val))
    (m : MeasurementProcess) (st : option State) (n : positive) (k : Key)
    : Outcome Val :=
  match mws false [m] st n k with
  | Ok out => outcome_of (item0 out)
  | Raise e => Raises e
  end.

(** The state with the capture switch off. *)
Definition disabled (s : St) : St :=
  {| self := self s; heap := heap s; capture_enabled := false |}.

(** A draw from the key stream: a mid-computation measurement or a terminal
    measurement. *)
Inductive Draw : Type :=
| MidDraw (invals : list Val) (reset : bool) (postselect : option Z)
| TerminalDraw (measurement : MeasurementProcess).

(** The handler a draw runs, and a sequence of draws run in order. *)
Definition draw (d : Draw) : Eff St Val :=
  match d with
  | MidDraw invals reset postselect => measure_prim_handler invals reset postselect
  | TerminalDraw m => interpret_measurement m
  end.

Fixpoint draws (ds : list Draw) : Eff St (list Val) :=
  match ds with
  | [] => ret []
  | d :: ds' =>
      v <- draw d ;;
      vs <- draws ds' ;;
      ret (v :: vs)
  end.

(** The draws that split the key under the shots configuration [sh]: every
    mid-computation measurement, and every terminal one when a shot count
    is set. *)
Definition splits_key (sh : Shots) (d : Draw) : bool :=
  match d with
  | MidDraw _ _ _ => true
  | TerminalDraw _ => match sh with Some _ => true | None => false end
  end.

(** How many draws of a sequence split the key. *)
Fixpoint key_splits (sh : Shots) (ds : list Draw) : nat :=
  match ds with
  | [] => 0
  | d :: ds' => ((if splits_key sh d then 1 else 0) + key_splits sh ds')%nat
  end.

End Interpreter.

(** * The wire-relabelling function [map_wires] *)

Module MapWires.

(** Wire labels are hashable Python values: ints or strings. *)
Inductive Wire : Type :=
| WInt (z : Z)
| WStr (s : string).

#[global] Instance Wire_eq_dec : EqDecision Wire.
Proof. solve_decision. Defined.

#[global] Instance Wire_countable : Countable Wire.
Proof.
  refine (inj_countable'
            (fun w => match w with WInt z => inl z | WStr s => inr s end)
            (fun x => match x with inl z => WInt z | inr s => WStr s end) _).
  by intros [].
Defined.

(** An operator: its class name, numeric data, wires, and the operands of
    a composite. *)
Inductive Operator : Type :=
| MkOperator (name : string) (data : list Z) (wires : list Wire)
    (operands : list Operator).

(** A measurement process: its class name, an optional observable and its
    own wires. *)
Record MeasurementProcess : Type :=
  MkMeasurement { m_name : string; m_obs : option Operator; m_wires : list Wire }.

Definition op_name (op : Operator) : string := let 'MkOperator n _ _ _ := op in n.
Definition op_data (op : Operator) : list Z := let 'MkOperator _ d _ _ := op in d.
Definition op_wires (op : Operator) : list Wire := let 'MkOperator _ _ w _ := op in w.
Definition op_operands (op : Operator) : list Operator :=
  let 'MkOperator _ _ _ o := op in o.

(** What [isinstance(input, (Operator, MeasurementProcess))] accepts. *)
Inductive Obj : Type :=
| ObjOp (op : Operator)
| ObjMP (mp : MeasurementProcess).

(** A tape: its operations may be operators or nested tapes. *)
Inductive QuantumScript : Type :=
| MkTape (operations : list TapeItem) (measurements : list MeasurementProcess)
    (shots : option positive) (trainable_params : list nat)
with TapeItem : Type :=
| ItemOp (op : Operator)
| ItemTape (t : QuantumScript).

Definition operations (t : QuantumScript) : list TapeItem :=
  let 'MkTape o _ _ _ := t in o.
Definition measurements (t : QuantumScript) : list MeasurementProcess :=
  let 'MkTape _ m _ _ := t in m.
Definition tape_shots (t : QuantumScript) : option positive :=
  let 'MkTape _ _ sh _ := t in sh.
Definition trainable_params (t : QuantumScript) : list nat :=
  let 'MkTape _ _ _ tp := t in tp.

(** The label a wire is replaced by. *)
Definition relabel (wire_map : gmap Wire Wire) (w : Wire) : Wire :=
  default w (wire_map !! w).

(** Modelled from the spec: [Operator.map_wires], defined in
    [pennylane/operation.py] and absent here: a recursive substitution of
    wire labels (section 1); a label the map does not mention is kept. *)
Fixpoint op_map_wires (wire_map : gmap Wire Wire) (op : Operator) : Operator :=
  let 'MkOperator n d ws ops := op in
  MkOperator n d (relabel wire_map <$> ws) (map (op_map_wires wire_map) ops).

(** Modelled from the spec: [MeasurementProcess.map_wires], absent here:
    the same substitution on the observable and on the wires. *)
Definition mp_map_wires (wire_map : gmap Wire Wire) (mp : MeasurementProcess)
    : MeasurementProcess :=
  {| m_name := m_name mp;
     m_obs := op_map_wires wire_map <$> m_obs mp;
     m_wires := relabel wire_map <$> m_wires mp |}.

(** [input.map_wires(wire_map=wire_map)] *)
Definition obj_map_wires (wire_map : gmap Wire Wire) (input : Obj) : Obj :=
  match input with
  | ObjOp op => ObjOp (op_map_wires wire_map op)
  | ObjMP mp => ObjMP (mp_map_wires wire_map mp)
  end.

(** The relabelling of a tape: of each operation (nested tapes included) and
    of each measurement; shots and trainable parameters are kept. *)
Fixpoint tape_map_wires (wire_map : gmap Wire Wire) (tape : QuantumScript)
    : QuantumScript :=
  let 'MkTape operations measurements shots trainable_params := tape in
  MkTape
    (map (fun item =>
            match item with
            | ItemOp op => ItemOp (op_map_wires wire_map op)
            | ItemTape t => ItemTape (tape_map_wires wire_map t)
            end) operations)
    (map (mp_map_wires wire_map) measurements)
    shots trainable_params.

(** [processing_fn] *)
Definition processing_fn {A} (res : list A) : Result A :=
  match res with x :: _ => Ok x | [] => Raise IndexError end.

Section Queuing.

(** The state of [QueuingManager] and the operations on it that
    [map_wires] calls; they are defined in [pennylane/queuing.py]. *)
Context {Q : Type}.
(** [QueuingManager.recording()] *)
Variable recording : Q -> bool.
(** [with QueuingManager.stop_recording(): body] *)
Variable stop_recording : forall A, Eff Q A -> Eff Q A.
(** [QueuingManager.remove(obj)] *)
Variable remove : Obj -> Eff Q unit.
(** [qml.apply(obj)] *)
Variable apply : Obj -> Eff Q unit.

(** [map_wires] on an [Operator] or a [MeasurementProcess]. *)
Definition map_wires_obj (input : Obj) (wire_map : gmap Wire Wire)
    (queue replace : bool) : Eff Q Obj :=
  q <- get ;;
  if recording q then
    new_op <- stop_recording _ (ret (obj_map_wires wire_map input)) ;;
    (if replace then remove input else ret tt) ;;;
    (if queue then apply new_op else ret tt) ;;;
    ret new_op
  else ret (obj_map_wires wire_map input).

Definition as_op (o : Obj) : Result Operator :=
  match o with ObjOp op => Ok op | ObjMP _ => Raise TypeError end.
Definition as_mp (o : Obj) : Result MeasurementProcess :=
  match o with ObjMP mp => Ok mp | ObjOp _ => Raise TypeError end.

(** The list comprehension over [tape.measurements]. *)
Fixpoint map_measurements (wire_map : gmap Wire Wire) (queue : bool)
    (ms : list MeasurementProcess) : Eff Q (list MeasurementProcess) :=
  match ms with
  | [] => ret []
  | m :: ms' =>
      o <- map_wires_obj (ObjMP m) wire_map queue false ;;
      m' <- lift (as_mp o) ;;
      rest <- map_measurements wire_map queue ms' ;;
      ret (m' :: rest)
  end.

(** [_map_wires_transform] on a tape; a nested tape is mapped by the
    same function and its single output tape taken. *)
Fixpoint _map_wires_transform (tape : QuantumScript) (wire_map : gmap Wire Wire)
    (queue : bool) {struct tape} : Eff Q QuantumScript :=
  let 'MkTape operations measurements shots trainable_params := tape in
  let map_ops :=
    fix map_ops (items : list TapeItem) : Eff Q (list TapeItem) :=
      match items with
      | [] => ret []
      | ItemOp op :: items' =>
          o <- map_wires_obj (ObjOp op) wire_map queue false ;;
          op' <- lift (as_op o) ;;
          rest <- map_ops items' ;;
          ret (ItemOp op' :: rest)
      | ItemTape t :: items' =>
          t' <- _map_wires_transform t wire_map queue ;;
          rest <- map_ops items' ;;
          ret (ItemTape t' :: rest)
      end in
  ops <- map_ops operations ;;
  ms <- map_measurements wire_map queue measurements ;;
  ret (MkTape ops ms shots trainable_params).

(** The inputs and outputs of [map_wires]. *)
Inductive Input : Type :=
| InObj (o : Obj)
| InTape (t : QuantumScript).

Inductive Output : Type :=
| OutObj (o : Obj)
| OutBatch (batch : list QuantumScript).

(** [map_wires]; for a batch output the postprocessing function is
    [processing_fn]. *)
Definition map_wires (input : Input) (wire_map : gmap Wire Wire)
    (queue replace : bool) : Eff Q Output :=
  match input with
  | InObj o => o' <- map_wires_obj o wire_map queue replace ;; ret (OutObj o')
  | InTape t => t' <- _map_wires_transform t wire_map queue ;; ret (OutBatch [t'])
  end.

End Queuing.

End MapWires.

(** * A small backend to run the interpreter on concrete programs

    Arrays are integers, the state is the list of the names of the
    operations applied so far, a key is its path in the tree of splits. *)

Module Demo.

Definition arr_index (a : Z) : option Z := Some a.
Definition arr_bool (a : Z) : option bool := Some (negb (a =? 0)).

Definition create_initial_state (n : nat) : list string := [].

Definition apply_operation (op : @Operator Z) (st : option (list string))
    : Result (list string) :=
  match st with
  | Some l => Ok (l ++ [op_name op])
  | None => Raise TypeError
  end.

Definition apply_mid_measure (mp : @MidMeasureMP Z) (st : option (list string))
    (k : list bool) : Result (list string * option (@Val Z)) :=
  match st with
  | Some l => Ok (l ++ ["measure"%string], Some (VBool (Nat.odd (length k))))
  | None => Raise TypeError
  end.

Definition split (k : list bool) : list bool * list bool := (false :: k, true :: k).

(** The measurement engines refuse to run while capture is enabled. *)
Definition measure (capture : bool) (m : @MeasurementProcess Z)
    (st : option (list string)) : Result (@Val Z) :=
  if capture then Raise (CollaboratorError 0)
  else match st with
       | Some l => Ok (VInt (Z.of_nat (length l)))
       | None => Raise TypeError
       end.

Definition measure_with_samples (capture : bool) (ms : list (@MeasurementProcess Z))
    (st : option (list string)) (n : positive) (k : list bool)
    : Result (list (@Val Z)) :=
  if capture then Raise (CollaboratorError 0)
  else Ok ((fun _ => VInt (Z.of_nat (length k))) <$> ms).

Definition eval : nat -> Jaxpr -> list Val -> list Val -> Eff St (list Val) :=
  eval arr_index arr_bool create_initial_state apply_operation apply_mid_measure
    split measure measure_with_samples.

(** An interpreter on two wires about to be entered, and one inside an
    invocation, attached to the only dictionary of the store. *)
Definition fresh (shots : Shots) : @St (list string) (list bool) :=
  {| self := {| num_wires := 2; shots := shots; initial_key := []; stateref := None |};
     heap := [];
     capture_enabled := true |}.

Definition running (shots : Shots) : @St (list string) (list bool) :=
  {| self := {| num_wires := 2; shots := shots; initial_key := [];
                stateref := Some 0%nat |};
     heap := [{| box_state := []; box_key := [] |}];
     capture_enabled := true |}.

(** A loop body [g(i, y)]: apply [RX(y, wires=0)], return [y]. *)
Definition rx_body : @Jaxpr Z :=
  MkJaxpr [] [0%nat; 1%nat]
    [MkEqn (operator_prim "RX") [AVar 1%nat; ALit (VInt 0)] []]
    [AVar 1%nat].

(** [f(x)]: run [g] for [i] in [range(0, 3, 1)], return [expval(Z(0))]. *)
Definition loop_program : @Jaxpr Z :=
  MkJaxpr [] [0%nat]
    [MkEqn (for_loop_prim rx_body (MkSlice 0 (Some 0%nat)) (MkSlice 0 None))
       [ALit (VInt 0); ALit (VInt 3); ALit (VInt 1); AVar 0%nat] [1%nat];
     MkEqn (measurement_prim "expval") [ALit (VInt 0)] [2%nat]]
    [AVar 2%nat].

(** [x < 3] and [x + 1] on an integer. *)
Definition below_three (vs : list (@Val Z)) : Result (list (@Val Z)) :=
  match vs with
  | [VInt z] => Ok [VBool (z <? 3)]
  | _ => Raise TypeError
  end.

Definition increment (vs : list (@Val Z)) : Result (list (@Val Z)) :=
  match vs with
  | [VInt z] => Ok [VInt (z + 1)]
  | _ => Raise TypeError
  end.

(** A while loop's condition [x < 3] and body: apply [X(0)], return [x + 1]. *)
Definition while_cond : @Jaxpr Z :=
  MkJaxpr [] [0%nat] [MkEqn (classical_prim below_three) [AVar 0%nat] [1%nat]]
    [AVar 1%nat].

Definition while_body : @Jaxpr Z :=
  MkJaxpr [] [0%nat]
    [MkEqn (operator_prim "X") [ALit (VInt 0)] [];
     MkEqn (classical_prim increment) [AVar 0%nat] [1%nat]]
    [AVar 1%nat].

(** A branch that applies the operation [name] and returns nothing. *)
Definition branch (name : string) : @Jaxpr Z :=
  MkJaxpr [] [] [MkEqn (operator_prim name) [ALit (VInt 0)] []] [].

Definition expval_z0 : @MeasurementProcess Z :=
  {| mp_name := "expval"; mp_args := [VInt 0] |}.

(** The running interpreter after [n] applications of the operation
    [name]. *)
Definition counted (name : string) (n : nat) : @St (list string) (list bool) :=
  {| self := {| num_wires := 2; shots := None; initial_key := [];
                stateref := Some 0%nat |};
     heap := [{| box_state := replicate n name; box_key := [] |}];
     capture_enabled := true |}.

(** A tape with a nested tape, on wires 0 and 1. *)
Definition nested_tape : MapWires.QuantumScript :=
  MapWires.MkTape
    [MapWires.ItemOp (MapWires.MkOperator "RX" [54] [MapWires.WInt 0] []);
     MapWires.ItemTape
       (MapWires.MkTape
          [MapWires.ItemOp (MapWires.MkOperator "PauliX" [] [MapWires.WInt 1] [])]
          [] None [])]
    [{| MapWires.m_name := "probs"; MapWires.m_obs := None;
        MapWires.m_wires := [MapWires.WInt 0] |}]
    (Some 100%positive) [0%nat].

(** A queuing state for concrete runs: the queue being recorded into, if
    any. *)
Definition recording (q : option (list MapWires.Obj)) : bool :=
  match q with Some _ => true | None => false end.

Definition stop_recording (A : Type) (m : Eff (option (list MapWires.Obj)) A)
    : Eff (option (list MapWires.Obj)) A :=
  fun q => let '(_, r) := m None in (q, r).

Definition remove (o : MapWires.Obj) : Eff (option (list MapWires.Obj)) unit :=
  fun q => (q, Returns tt).

Definition apply (o : MapWires.Obj) : Eff (option (list MapWires.Obj)) unit :=
  fun q => (((fun l => l ++ [o]) <$> q), Returns tt).

End Demo.

(** * Properties of the interpreter *)

Section InterpreterProperties.

Context {Arr State Key : Type}.
Variable arr_index : Arr -> option Z.
Variable arr_bool : Arr -> option bool.
Variable create_initial_state : nat -> State.
Variable apply_operation : @Operator Arr -> option State -> Result State.
Variable apply_mid_measure :
  @MidMeasureMP Arr -> option State -> Key -> Result (State * option (@Val Arr)).
Variable split : Key -> Key * Key.
Variable measure : bool -> @MeasurementProcess Arr -> option State -> Result (@Val Arr).
Variable measure_with_samples :
  bool -> list (@MeasurementProcess Arr) -> option State -> positive -> Key ->
  Result (list (@Val Arr)).

Abbreviation St := (@St State Key).
Abbreviation Val := (@Val Arr).
Abbreviation Jaxpr := (@Jaxpr Arr).
Abbreviation truth := (truth arr_bool).
Abbreviation as_index := (as_index arr_index).
Abbreviation setup := (setup create_initial_state).
Abbreviation interpret_operation := (interpret_operation apply_operation).
Abbreviation interpret_measurement_with :=
  (@interpret_measurement Arr State Key split).
Abbreviation interpret_measurement :=
  (interpret_measurement split measure measure_with_samples).
Abbreviation measure_prim_handler := (measure_prim_handler apply_mid_measure split).
Abbreviation for_loop_prim_handler := (for_loop_prim_handler arr_index).
Abbreviation while_loop_prim_handler := (while_loop_prim_handler arr_bool).
Abbreviation while_loop_iter := (while_loop_iter arr_bool).
Abbreviation cond_prim_handler := (cond_prim_handler arr_bool).
Abbreviation cond_iter := (cond_iter arr_bool).
Abbreviation eval_eqn :=
  (eval_eqn arr_index arr_bool apply_operation apply_mid_measure split measure
     measure_with_samples).
Abbreviation eval_eqns :=
  (eval_eqns arr_index arr_bool apply_operation apply_mid_measure split measure
     measure_with_samples).
Abbreviation eval :=
  (eval arr_index arr_bool create_initial_state apply_operation apply_mid_measure
     split measure measure_with_samples).
Abbreviation keeps l m := (@keeps State Key _ l m).
Abbreviation keeps_store l m := (@keeps_store State Key _ l m).
Abbreviation same_store := (@same_store State Key).
Abbreviation same_frame := (@same_frame State Key).
Abbreviation child_ok := (@child_ok Arr State Key).
Abbreviation on_box := (@on_box Arr State Key).
Abbreviation with_self := (@with_self State Key).
Abbreviation set_box := (@set_box State Key).
Abbreviation enabled := (@enabled State Key).
Abbreviation disabled := (@disabled State Key).
Abbreviation detached := (@detached Key).
Abbreviation classical_iteration := (@classical_iteration Arr State Key).
Abbreviation attached := (attached create_initial_state).
Abbreviation stream_key := (stream_key split).
Abbreviation draw_key := (draw_key split).
Abbreviation derive := (derive split).
Abbreviation collision_free := (collision_free split).
Abbreviation measure_each := (measure_each apply_mid_measure split).
Abbreviation expected_outcomes := (expected_outcomes apply_mid_measure split).
Abbreviation passed_over := (passed_over arr_bool).
Abbreviation interpret_measurement_eqn :=
  (interpret_measurement_eqn split measure measure_with_samples).
Abbreviation draw := (draw apply_mid_measure split measure measure_with_samples).
Abbreviation draws := (draws apply_mid_measure split measure measure_with_samples).
Abbreviation key_splits := (@key_splits Arr).

(** ** Frame conditions *)

Lemma same_store_refl l (s : St) : same_store l s s.
Proof. by split. Qed.

Lemma same_store_trans l (s1 s2 s3 : St) :
  same_store l s1 s2 -> same_store l s2 s3 -> same_store l s1 s3.
Proof.
  intros [H1 H2] [H3 H4]. split; [congruence|].
  intros l' Hl'. rewrite H4, H2; done.
Qed.

Lemma same_frame_refl l (s : St) : same_frame l s s.
Proof. split; [done | apply same_store_refl]. Qed.

Lemma same_frame_trans l (s1 s2 s3 : St) :
  same_frame l s1 s2 -> same_frame l s2 s3 -> same_frame l s1 s3.
Proof.
  intros [H1 H2] [H3 H4]. split; [congruence | by eapply same_store_trans].
Qed.

Lemma keeps_weaken {A} l (m : Eff St A) : keeps l m -> keeps_store l m.
Proof. intros H s s' r Hl Hm. by destruct (H s s' r Hl Hm). Qed.

Lemma keeps_ret {A} l (a : A) : keeps l (ret a).
Proof. intros s s' r _ [= <- _]. apply same_frame_refl. Qed.

Lemma keeps_raise {A} l e : keeps l (@raise St A e).
Proof. intros s s' r _ [= <- _]. apply same_frame_refl. Qed.

Lemma keeps_diverge {A} l : keeps l (@diverge St A).
Proof. intros s s' r _ [= <- _]. apply same_frame_refl. Qed.

Lemma keeps_lift {A} l (x : Result A) : keeps l (lift x).
Proof. destruct x; [apply keeps_ret | apply keeps_raise]. Qed.

Lemma keeps_bind {A B} l (m : Eff St A) (k : A -> Eff St B) :
  keeps l m -> (forall a, keeps l (k a)) -> keeps l (bind m k).
Proof.
  intros Hm Hk s s' r Hl. unfold bind.
  destruct (m s) as [s1 [a|e|]] eqn:E; intros Hr.
  - pose proof (Hm _ _ _ Hl E) as Hf.
    eapply same_frame_trans; [exact Hf|].
    eapply Hk; [|exact Hr]. destruct Hf as [-> _]. done.
  - injection Hr as <- _. by eapply Hm.
  - injection Hr as <- _. by eapply Hm.
Qed.

Lemma keeps_store_bind {A B} l (m : Eff St A) (k : A -> Eff St B) :
  keeps l m -> (forall a, keeps_store l (k a)) -> keeps_store l (bind m k).
Proof.
  intros Hm Hk s s' r Hl. unfold bind.
  destruct (m s) as [s1 [a|e|]] eqn:E; intros Hr.
  - pose proof (Hm _ _ _ Hl E) as [Hs Hf].
    eapply same_store_trans; [exact Hf|].
    eapply Hk; [|exact Hr]. by rewrite Hs.
  - injection Hr as <- _. by eapply Hm.
  - injection Hr as <- _. by eapply Hm.
Qed.

Lemma keeps_try_finally {A} l (m : Eff St A) (fin : Eff St unit) :
  keeps l m -> keeps l fin -> keeps l (try_finally m fin).
Proof.
  intros Hm Hf s s' r Hl. unfold try_finally.
  destruct (m s) as [s1 o] eqn:E.
  pose proof (Hm _ _ _ Hl E) as Hs1.
  assert (stateref (self s1) = Some l) as Hl1 by (destruct Hs1 as [-> _]; done).
  destruct (fin s1) as [s2 o2] eqn:E2.
  pose proof (Hf _ _ _ Hl1 E2) as Hs2.
  destruct o; [| |by intros [= <- _]];
    destruct o2 as [[]|e2|]; intros [= <- _]; by eapply same_frame_trans.
Qed.

(** ** The attribute accesses and the measurement handlers keep the frame *)

Lemma keeps_get_state l : keeps l get_state.
Proof.
  intros s s' r Hl. unfold get_state, bind, get, deref, ret. rewrite Hl.
  destruct (heap s !! l); intros [= <- _]; apply same_frame_refl.
Qed.

Lemma keeps_get_key l : keeps l get_key.
Proof.
  intros s s' r Hl. unfold get_key, bind, get, deref, ret. rewrite Hl.
  destruct (heap s !! l); intros [= <- _]; apply same_frame_refl.
Qed.

Lemma keeps_set_state l v : keeps l (set_state v).
Proof.
  intros s s' r Hl. unfold set_state, bind, get, deref, put. rewrite Hl.
  destruct (heap s !! l); intros [= <- _]; [|apply same_frame_refl].
  repeat split; simpl; [apply length_insert|].
  intros l' Hl'. by apply list_lookup_insert_ne.
Qed.

Lemma keeps_set_key l v : keeps l (set_key v).
Proof.
  intros s s' r Hl. unfold set_key, bind, get, deref, put. rewrite Hl.
  destruct (heap s !! l); intros [= <- _]; [|apply same_frame_refl].
  repeat split; simpl; [apply length_insert|].
  intros l' Hl'. by apply list_lookup_insert_ne.
Qed.

Lemma keeps_get l : keeps l (@get St).
Proof. intros s s' r _ [= <- _]. apply same_frame_refl. Qed.

Lemma keeps_disable l : keeps l (@disable State Key).
Proof. intros s s' r _ [= <- _]. by repeat split. Qed.

Lemma keeps_enable l : keeps l (@enable State Key).
Proof. intros s s' r _ [= <- _]. by repeat split. Qed.

Create HintDb keeps.
Hint Resolve keeps_ret keeps_raise keeps_diverge keeps_lift keeps_get_state
  keeps_get_key keeps_set_state keeps_set_key keeps_get keeps_disable
  keeps_enable : keeps.

(** Splits a goal [keeps l m] along the binds and matches of [m]. *)
Ltac keeps_step :=
  match goal with
  | |- keeps _ (bind _ _) => apply keeps_bind; [|intros ?]
  | |- keeps _ (try_finally _ _) => apply keeps_try_finally
  | |- keeps _ (match ?x with _ => _ end) => destruct x
  | |- keeps _ (if ?x then _ else _) => destruct x
  | |- keeps _ _ => solve [eauto with keeps]
  end.

Lemma keeps_interpret_operation l op : keeps l (interpret_operation op).
Proof. unfold interpret_operation. repeat keeps_step. Qed.

Lemma keeps_interpret_measurement l m : keeps l (interpret_measurement m).
Proof. unfold interpret_measurement. repeat keeps_step. Qed.

Lemma keeps_measure_prim_handler l invals reset postselect :
  keeps l (measure_prim_handler invals reset postselect).
Proof. unfold measure_prim_handler. repeat keeps_step. Qed.

Hint Resolve keeps_interpret_operation keeps_interpret_measurement
  keeps_measure_prim_handler : keeps.

(** ** The control-flow handlers keep the frame *)

Section HandlersKeep.

Variable l : nat.
Variable ev : Jaxpr -> list Val -> list Val -> Eff St (list Val).
Hypothesis ev_ok : child_ok l ev.

Lemma keeps_copy_eval j c a : keeps l (copy_eval ev j c a).
Proof.
  intros s s' r Hl. unfold copy_eval.
  destruct (ev j c a _) as [s1 r1] eqn:E. intros [= <- _].
  split; [done|]. eapply ev_ok in E; [exact E | exact Hl].
Qed.

Lemma keeps_for_loop_iter body consts rng res :
  keeps l (for_loop_iter ev body consts rng res).
Proof.
  revert res. induction rng as [|i rng IH]; intros res; simpl.
  - apply keeps_ret.
  - apply keeps_bind; [apply keeps_copy_eval | intros res'; apply IH].
Qed.

Lemma keeps_for_loop_prim_handler start stop step invals body cs asl :
  keeps l (for_loop_prim_handler ev start stop step invals body cs asl).
Proof.
  unfold for_loop_prim_handler.
  repeat (apply keeps_bind; [apply keeps_lift | intros ?]).
  apply keeps_for_loop_iter.
Qed.

Lemma keeps_while_loop_iter fuel body cond cb cc res :
  keeps l (while_loop_iter ev fuel body cond cb cc res).
Proof.
  revert res. induction fuel as [|fuel IH]; intros res; simpl.
  - apply keeps_diverge.
  - apply keeps_bind; [apply keeps_copy_eval | intros c].
    apply keeps_bind; [apply keeps_lift | intros c0].
    apply keeps_bind; [apply keeps_lift | intros t].
    destruct t; [|apply keeps_ret].
    apply keeps_bind; [apply keeps_copy_eval | intros res'; apply IH].
Qed.

Lemma keeps_while_loop_prim_handler fuel invals body cond bs cs asl :
  keeps l (while_loop_prim_handler ev fuel invals body cond bs cs asl).
Proof. apply keeps_while_loop_iter. Qed.

Lemma keeps_cond_iter invals args branches :
  keeps l (cond_iter ev invals args branches).
Proof.
  induction branches as [|[[pred jaxpr] sl] branches IH]; simpl.
  - apply keeps_ret.
  - apply keeps_bind; [apply keeps_lift | intros t].
    destruct t, jaxpr; auto using keeps_copy_eval.
Qed.

Lemma keeps_cond_prim_handler invals branches slices asl :
  keeps l (cond_prim_handler ev invals branches slices asl).
Proof. apply keeps_cond_iter. Qed.

Lemma keeps_eval_eqn fuel env e : keeps l (eval_eqn ev fuel env e).
Proof.
  destruct e as [prim ins outs]. unfold eval_eqn.
  destruct prim; unfold interpret_measurement_eqn,
    adjoint_transform_prim_handler, ctrl_transform_prim_handler;
    repeat first
      [ apply keeps_for_loop_prim_handler
      | apply keeps_while_loop_prim_handler
      | apply keeps_cond_prim_handler
      | keeps_step ].
Qed.

Lemma keeps_eval_eqns fuel env es : keeps l (eval_eqns ev fuel env es).
Proof.
  revert env. induction es as [|e es IH]; intros env; simpl.
  - apply keeps_ret.
  - apply keeps_bind; [apply keeps_eval_eqn | intros env'; apply IH].
Qed.

End HandlersKeep.

Lemma setup_attached (s : St) l :
  stateref (self s) = Some l -> setup s = (s, Returns tt).
Proof. intros Hl. unfold setup, bind, get, ret. by rewrite Hl. Qed.

Lemma keeps_setup l : keeps l setup.
Proof.
  intros s s' r Hl. rewrite (setup_attached s l Hl).
  intros [= <- _]. apply same_frame_refl.
Qed.

Lemma keeps_store_cleanup l : keeps_store l (@cleanup State Key).
Proof.
  unfold cleanup. apply keeps_store_bind; [apply keeps_get_key | intros k].
  intros s s' r _ [= <- _]. by split.
Qed.

(** The evaluator, entered with a dictionary attached, stays on it. *)
Lemma eval_child_ok l fuel : child_ok l (eval fuel).
Proof.
  induction fuel as [|fuel IH]; intros j c a; simpl.
  - apply keeps_weaken, keeps_diverge.
  - apply keeps_store_bind; [apply keeps_setup | intros _].
    apply keeps_store_bind; [apply keeps_lift | intros env0].
    apply keeps_store_bind; [apply keeps_lift | intros env1].
    apply keeps_store_bind; [by apply keeps_eval_eqns | intros env2].
    apply keeps_store_bind; [apply keeps_lift | intros outs].
    intros s s' r Hl. unfold bind.
    destruct (cleanup s) as [s1 [[]| |]] eqn:E; intros [= <- _];
      by eapply keeps_store_cleanup.
Qed.

(** ** Calls of the evaluator made by a handler *)

Section OnBox.

Variable l : nat.
Variable ev : Jaxpr -> list Val -> list Val -> Eff St (list Val).

Lemma copy_eval_self j c a (s s' : St) r :
  copy_eval ev j c a s = (s', r) -> self s' = self s.
Proof.
  unfold copy_eval. destruct (ev j c a _) as [s1 r1]. by intros [= <- _].
Qed.

Lemma copy_eval_on_box j c a (s : St) :
  stateref (self s) = Some l ->
  copy_eval (on_box l ev) j c a s = copy_eval ev j c a s.
Proof.
  intros Hl. unfold copy_eval, on_box. simpl.
  destruct (decide (stateref (self s) = Some l)); [done | contradiction].
Qed.

Lemma for_loop_iter_on_box body consts rng res (s : St) :
  stateref (self s) = Some l ->
  for_loop_iter (on_box l ev) body consts rng res s =
  for_loop_iter ev body consts rng res s.
Proof.
  revert res s. induction rng as [|i rng IH]; intros res s Hl; [done|].
  simpl. unfold bind. rewrite copy_eval_on_box by done.
  destruct (copy_eval ev body consts _ s) as [s1 [res'| |]] eqn:E; [|done..].
  apply IH. apply copy_eval_self in E. by rewrite E.
Qed.

Lemma while_loop_iter_on_box fuel body cond cb cc res (s : St) :
  stateref (self s) = Some l ->
  while_loop_iter (on_box l ev) fuel body cond cb cc res s =
  while_loop_iter ev fuel body cond cb cc res s.
Proof.
  revert res s. induction fuel as [|fuel IH]; intros res s Hl; [done|].
  simpl. unfold bind at 1 5. rewrite copy_eval_on_box by done.
  destruct (copy_eval ev cond cc res s) as [s1 [c| |]] eqn:E; [|done..].
  apply copy_eval_self in E.
  unfold bind at 1 4. destruct (lift (item0 c) s1) as [s2 [c0| |]] eqn:E2; [|done..].
  assert (s2 = s1) as -> by (destruct (item0 c); by injection E2).
  unfold bind at 1 3. destruct (lift (truth c0) s1) as [s3 [t| |]] eqn:E3; [|done..].
  assert (s3 = s1) as -> by (destruct (truth c0); by injection E3).
  destruct t; [|done].
  unfold bind. rewrite copy_eval_on_box by congruence.
  destruct (copy_eval ev body cb res s1) as [s4 [res'| |]] eqn:E4; [|done..].
  apply IH. apply copy_eval_self in E4. congruence.
Qed.

Lemma cond_iter_on_box invals args branches (s : St) :
  stateref (self s) = Some l ->
  cond_iter (on_box l ev) invals args branches s =
  cond_iter ev invals args branches s.
Proof.
  intros Hl. induction branches as [|[[pred jaxpr] sl] branches IH]; [done|].
  simpl. unfold bind.
  destruct (lift (truth pred) s) as [s1 [t| |]] eqn:E; [|done..].
  assert (s1 = s) as -> by (destruct (truth pred); by injection E).
  destruct t, jaxpr; auto using copy_eval_on_box.
Qed.

End OnBox.

Lemma lift_state {A} (x : Result A) (s s' : St) o :
  lift x s = (s', o) -> s' = s.
Proof. destruct x; by intros [= <- _]. Qed.

Lemma for_loop_prim_handler_on_box l ev start stop step invals body cs asl (s : St) :
  stateref (self s) = Some l ->
  for_loop_prim_handler (on_box l ev) start stop step invals body cs asl s =
  for_loop_prim_handler ev start stop step invals body cs asl s.
Proof.
  intros Hl. unfold for_loop_prim_handler, bind.
  destruct (lift (as_index start) s) as [s1 [a| |]] eqn:E1; [|done..].
  apply lift_state in E1 as ->.
  destruct (lift (as_index stop) s) as [s1 [b| |]] eqn:E2; [|done..].
  apply lift_state in E2 as ->.
  destruct (lift (as_index step) s) as [s1 [c| |]] eqn:E3; [|done..].
  apply lift_state in E3 as ->.
  destruct (lift (py_range a b c) s) as [s1 [rng| |]] eqn:E4; [|done..].
  apply lift_state in E4 as ->.
  by apply for_loop_iter_on_box.
Qed.

(** ** C1: child frames share the dictionary of their parent *)

(** C1.  In a frame whose interpreter refers to the dictionary at [l]:
    [copy] yields an object that refers to the same dictionary and [setup]
    on it creates nothing; whatever the evaluator does, the for-loop, the
    while-loop and the conditional handler enter it only in frames that
    refer to [l]; what a child leaves in the store is what its parent goes
    on with; and with the evaluator of this development each of the three
    handlers leaves the interpreter object as it was, creates no
    dictionary and writes to none but the one at [l]. *)
Theorem child_frames_share_the_box (l : nat) (s : St) :
  stateref (self s) = Some l ->
  (stateref (copy (self s)) = Some l /\
   setup (with_self (copy (self s)) s) = (with_self (copy (self s)) s, Returns tt)) /\
  (forall ev,
      (forall start stop step invals body cs asl,
          for_loop_prim_handler (on_box l ev) start stop step invals body cs asl s =
          for_loop_prim_handler ev start stop step invals body cs asl s) /\
      (forall fuel invals body cond bs cs asl,
          while_loop_prim_handler (on_box l ev) fuel invals body cond bs cs asl s =
          while_loop_prim_handler ev fuel invals body cond bs cs asl s) /\
      (forall invals branches slices asl,
          cond_prim_handler (on_box l ev) invals branches slices asl s =
          cond_prim_handler ev invals branches slices asl s) /\
      (forall j c a,
          heap (copy_eval ev j c a s).1 =
          heap (ev j c a (with_self (copy (self s)) s)).1)) /\
  (forall fuel s' r,
      (forall start stop step invals body cs asl,
          for_loop_prim_handler (eval fuel) start stop step invals body cs asl s
            = (s', r) -> same_frame l s s') /\
      (forall n invals body cond bs cs asl,
          while_loop_prim_handler (eval fuel) n invals body cond bs cs asl s
            = (s', r) -> same_frame l s s') /\
      (forall invals branches slices asl,
          cond_prim_handler (eval fuel) invals branches slices asl s
            = (s', r) -> same_frame l s s')).
Proof.
  intros Hl. split; [|split].
  - split; [exact Hl|]. by apply (setup_attached _ l).
  - intros ev. repeat split.
    + intros. by apply for_loop_prim_handler_on_box.
    + intros. by apply while_loop_iter_on_box.
    + intros. by apply cond_iter_on_box.
    + intros j c a. unfold copy_eval, with_self.
      by destruct (ev j c a _).
  - intros fuel s' r. pose proof (eval_child_ok l fuel) as Hev. repeat split.
    all: intros; first
      [ eapply keeps_for_loop_prim_handler; eassumption
      | eapply keeps_while_loop_prim_handler; eassumption
      | eapply keeps_cond_prim_handler; eassumption ].
Qed.

(** ** C3: the life of the dictionary *)

Lemma bind_returns {A B} (m : Eff St A) (k : A -> Eff St B) (s s' : St) b :
  bind m k s = (s', Returns b) ->
  exists a s1, m s = (s1, Returns a) /\ k a s1 = (s', Returns b).
Proof.
  unfold bind. destruct (m s) as [s1 [a| |]]; [eauto | done | done].
Qed.

Lemma setup_detached (s : St) :
  stateref (self s) = None -> setup s = (attached s, Returns tt).
Proof. intros Hl. unfold setup, bind, get, put. by rewrite Hl. Qed.

Lemma cleanup_attached (s : St) l b :
  stateref (self s) = Some l -> heap s !! l = Some b ->
  cleanup s = (with_self (detached (self s) (box_key b)) s, Returns tt).
Proof.
  intros Hl Hb. unfold cleanup, get_key, bind, get, deref, put, ret.
  by rewrite Hl, Hb.
Qed.

Lemma cleanup_returns (s s' : St) l :
  stateref (self s) = Some l -> cleanup s = (s', Returns tt) ->
  exists b, heap s !! l = Some b /\
            s' = with_self (detached (self s) (box_key b)) s.
Proof.
  intros Hl. unfold cleanup, get_key, bind, get, deref, put, ret. rewrite Hl.
  destruct (heap s !! l) as [b|]; [|done]. intros [= <-]. by exists b.
Qed.

(** An invocation entered in a frame attached to [l] that returns. *)
Lemma eval_attached_returns fuel j c a (s s' : St) l outs :
  stateref (self s) = Some l ->
  eval fuel j c a s = (s', Returns outs) ->
  same_store l s s' /\
  exists b, heap s' !! l = Some b /\ self s' = detached (self s) (box_key b).
Proof.
  intros Hl He. split; [by eapply eval_child_ok|].
  destruct fuel as [|fuel]; [done|]. simpl in He.
  apply bind_returns in He as ([] & s0 & Hs & He).
  rewrite (setup_attached s l Hl) in Hs. injection Hs as <-.
  apply bind_returns in He as (env0 & s1 & H0 & He).
  apply lift_state in H0 as ->.
  apply bind_returns in He as (env1 & s1 & H1 & He).
  apply lift_state in H1 as ->.
  apply bind_returns in He as (env2 & s2 & H2 & He).
  apply (keeps_eval_eqns l _ (eval_child_ok l fuel)) in H2 as [Hself _]; [|done].
  apply bind_returns in He as (outs' & s3 & H3 & He).
  apply lift_state in H3 as ->.
  apply bind_returns in He as ([] & s4 & H4 & He).
  injection He as <- _.
  apply (cleanup_returns _ _ l) in H4 as (b & Hb & ->); [|congruence].
  exists b. simpl. by rewrite Hself.
Qed.

(** C3.  [setup] creates a dictionary, holding a fresh initial state and
    the initial key, exactly when none is attached, and does nothing when
    one is; [cleanup] detaches it and keeps its key, not its state; a
    top-level invocation (entered with no dictionary attached) that
    completes has created exactly one dictionary, has detached it, and has
    left its final key as the initial key, so that the next [setup]
    starts from a fresh state and that key. *)
Theorem box_lifecycle (s : St) :
  (stateref (self s) = None -> setup s = (attached s, Returns tt)) /\
  (forall l, stateref (self s) = Some l -> setup s = (s, Returns tt)) /\
  (forall l b, stateref (self s) = Some l -> heap s !! l = Some b ->
     cleanup s = (with_self (detached (self s) (box_key b)) s, Returns tt)) /\
  (forall fuel j c a s' outs,
     stateref (self s) = None ->
     eval fuel j c a s = (s', Returns outs) ->
     exists b,
       heap s' = heap s ++ [b] /\
       self s' = detached (self s) (box_key b) /\
       setup s' =
         ({| self := {| num_wires := num_wires (self s); shots := shots (self s);
                        initial_key := box_key b;
                        stateref := Some (length (heap s')) |};
             heap := heap s' ++
                       [{| box_state := create_initial_state (num_wires (self s));
                           box_key := box_key b |}];
             capture_enabled := capture_enabled s' |}, Returns tt)).
Proof.
  split; [apply setup_detached|]. split; [apply setup_attached|].
  split; [apply cleanup_attached|].
  intros fuel j c a s' outs Hl He.
  destruct fuel as [|fuel]; [done|].
  assert (eval (S fuel) j c a (attached s) = (s', Returns outs)) as He'.
  { rewrite <- He. cbn [eval].
    set (rest := fun _ : unit => _).
    unfold bind.
    rewrite (setup_detached s Hl), (setup_attached (attached s) (length (heap s))); done. }
  apply (eval_attached_returns _ _ _ _ _ _ (length (heap s))) in He'
    as [[Hlen Hother] (b & Hb & Hself)]; [|done].
  simpl in Hlen, Hother, Hself. rewrite length_app in Hlen. simpl in Hlen.
  assert (heap s' = heap s ++ [b]) as Hheap.
  { apply list_eq. intros i.
    destruct (decide (i = length (heap s))) as [->|Hne].
    - rewrite Hb. symmetry. apply list_lookup_middle. done.
    - rewrite Hother by done.
      destruct (decide (i < length (heap s))%nat).
      + by rewrite !lookup_app_l.
      + rewrite !lookup_ge_None_2; [done|..]; rewrite length_app; simpl; lia. }
  exists b. split; [done|]. split; [done|].
  rewrite setup_detached by (by rewrite Hself).
  unfold attached. by rewrite Hself.
Qed.

(** ** C2: the bounded loop *)

Lemma range_len_nonneg a b c : 0 <= range_len a b c.
Proof.
  unfold range_len.
  destruct (0 <? c) eqn:Hc; [apply Z.ltb_lt in Hc|];
    [|destruct (c <? 0) eqn:Hc'; [apply Z.ltb_lt in Hc'|lia]].
  - destruct (a <? b) eqn:Hab; [apply Z.ltb_lt in Hab|lia].
    pose proof (Z.div_pos (b - a - 1) c). lia.
  - destruct (b <? a) eqn:Hab; [apply Z.ltb_lt in Hab|lia].
    pose proof (Z.div_pos (a - b - 1) (- c)). lia.
Qed.

Lemma range_len_step a b c :
  c <> 0 ->
  range_len a b c =
  if before_stop a b c then 1 + range_len (a + c) b c else 0.
Proof.
  intros Hc0. unfold range_len, before_stop.
  destruct (0 <? c) eqn:Hc; [apply Z.ltb_lt in Hc|apply Z.ltb_ge in Hc].
  - destruct (a <? b) eqn:Hab; [apply Z.ltb_lt in Hab|done].
    destruct (a + c <? b) eqn:Hacb;
      [apply Z.ltb_lt in Hacb|apply Z.ltb_ge in Hacb].
    + replace (b - (a + c) - 1) with (b - a - 1 + (-1) * c) by lia.
      rewrite Z.div_add by lia. lia.
    + rewrite Z.div_small by lia. lia.
  - assert ((c <? 0) = true) as -> by (apply Z.ltb_lt; lia).
    destruct (b <? a) eqn:Hab; [apply Z.ltb_lt in Hab|done].
    destruct (b <? a + c) eqn:Hacb;
      [apply Z.ltb_lt in Hacb|apply Z.ltb_ge in Hacb].
    + replace (a + c - b - 1) with (a - b - 1 + (-1) * (- c)) by lia.
      rewrite Z.div_add by lia. lia.
    + rewrite Z.div_small by lia. lia.
Qed.

Lemma range_elems_step a b c :
  c <> 0 ->
  range_elems a b c =
  if before_stop a b c then a :: range_elems (a + c) b c else [].
Proof.
  intros Hc0. unfold range_elems. rewrite (range_len_step a b c Hc0).
  destruct (before_stop a b c); [|done].
  pose proof (range_len_nonneg (a + c) b c) as Hn.
  rewrite Z2Nat.inj_add by lia. change (Z.to_nat 1) with 1%nat.
  simpl. f_equal; [lia|].
  rewrite <- fmap_S_seq, <- list_fmap_compose.
  apply list_fmap_ext. intros _ k _. simpl. lia.
Qed.

Lemma range_elems_length a b c :
  c <> 0 -> (length (range_elems a b c) <= Z.to_nat (Z.abs (b - a)))%nat.
Proof.
  intros Hc0. unfold range_elems. rewrite length_fmap, length_seq.
  apply Z2Nat.inj_le; [apply range_len_nonneg | lia |].
  unfold range_len.
  destruct (0 <? c) eqn:Hc; [apply Z.ltb_lt in Hc|apply Z.ltb_ge in Hc].
  - destruct (a <? b) eqn:Hab; [apply Z.ltb_lt in Hab|lia].
    assert ((b - a - 1) / c <= b - a - 1); [|lia].
    apply Z.div_le_upper_bound; nia.
  - assert ((c <? 0) = true) as -> by (apply Z.ltb_lt; lia).
    destruct (b <? a) eqn:Hab; [apply Z.ltb_lt in Hab|lia].
    assert ((a - b - 1) / (- c) <= a - b - 1); [|lia].
    apply Z.div_le_upper_bound; nia.
Qed.

Lemma for_loop_iter_classical ev body consts n a b c res (s : St) :
  c <> 0 -> (length (range_elems a b c) <= n)%nat ->
  for_loop_iter ev body consts (range_elems a b c) res s =
  classical_iteration n a b c
    (fun i carried => copy_eval ev body consts (VInt i :: carried)) res s.
Proof.
  intros Hc0. revert a res s. induction n as [|n IH]; intros a res s Hlen.
  - destruct (range_elems a b c); [done | simpl in Hlen; lia].
  - simpl. revert Hlen. rewrite (range_elems_step a b c Hc0).
    destruct (before_stop a b c); [|done].
    simpl. intros Hlen. unfold bind.
    destruct (copy_eval ev body consts (VInt a :: res) s) as [s1 [res'| |]];
      [|done..].
    apply IH. lia.
Qed.

Lemma for_loop_prim_handler_range ev start stop step a b c invals body cs asl (s : St) :
  as_index start = Ok a -> as_index stop = Ok b -> as_index step = Ok c ->
  for_loop_prim_handler ev start stop step invals body cs asl s =
  if c =? 0 then (s, Raises ValueError)
  else for_loop_iter ev body (slice_of invals cs) (range_elems a b c)
         (slice_of invals asl) s.
Proof.
  intros Ha Hb Hc. unfold for_loop_prim_handler, py_range.
  rewrite Ha, Hb, Hc. simpl. unfold bind at 1 2 3 4. simpl.
  by destruct (c =? 0).
Qed.

(** C2, amended.  With start, stop and step that are integers [a], [b]
    and [c]: for a non-zero step the bounded-loop handler is the classical
    iteration from [a] to [b] (exclusive) in steps of [c], each trip
    evaluating the body in a new child frame on the constants, the index
    and the carried arguments and passing its outputs on, for any trip
    bound [n] of at least [|b - a|]; a range of zero iterations changes
    nothing and returns the initial carried arguments; a step of zero
    raises [ValueError] and changes nothing. *)
Theorem for_loop_classical_iteration
    ev start stop step a b c invals body cs asl (s : St) :
  as_index start = Ok a -> as_index stop = Ok b -> as_index step = Ok c ->
  (c <> 0 -> forall n, (Z.to_nat (Z.abs (b - a)) <= n)%nat ->
     for_loop_prim_handler ev start stop step invals body cs asl s =
     classical_iteration n a b c
       (fun i carried => copy_eval ev body (slice_of invals cs) (VInt i :: carried))
       (slice_of invals asl) s) /\
  (c <> 0 -> before_stop a b c = false ->
     for_loop_prim_handler ev start stop step invals body cs asl s =
     (s, Returns (slice_of invals asl))) /\
  (c = 0 ->
     for_loop_prim_handler ev start stop step invals body cs asl s =
     (s, Raises ValueError)).
Proof.
  intros Ha Hb Hc.
  rewrite (for_loop_prim_handler_range ev _ _ _ _ _ _ _ _ _ _ s Ha Hb Hc).
  split; [|split].
  - intros Hc0 n Hn. apply Z.eqb_neq in Hc0 as Hc0'. rewrite Hc0'.
    apply for_loop_iter_classical; [done|].
    pose proof (range_elems_length a b c Hc0). lia.
  - intros Hc0 Hstop. apply Z.eqb_neq in Hc0 as Hc0'. rewrite Hc0'.
    by rewrite (range_elems_step a b c Hc0), Hstop.
  - intros ->. done.
Qed.

(** ** Attribute accesses in an attached frame *)

Lemma set_box_lookup (s : St) l b0 b :
  heap s !! l = Some b0 -> heap (set_box s l b) !! l = Some b.
Proof.
  intros H. apply lookup_lt_Some in H. by apply list_lookup_insert_eq.
Qed.

Lemma set_box_set_box (s : St) l b b' :
  set_box (set_box s l b) l b' = set_box s l b'.
Proof. unfold set_box. simpl. by rewrite list_insert_insert_eq. Qed.

Lemma set_box_id (s : St) l b : heap s !! l = Some b -> set_box s l b = s.
Proof.
  intros H. unfold set_box. rewrite list_insert_id by done. by destruct s.
Qed.

Section Attached.

Variables (s : St) (l : nat) (b : @Box State Key).
Hypothesis Hl : stateref (self s) = Some l.
Hypothesis Hb : heap s !! l = Some b.

Lemma get_key_attached : get_key s = (s, Returns (box_key b)).
Proof. unfold get_key, bind, get, deref, ret. by rewrite Hl, Hb. Qed.

Lemma get_state_attached : get_state s = (s, Returns (Some (box_state b))).
Proof. unfold get_state, bind, get, deref, ret. by rewrite Hl, Hb. Qed.

Lemma set_key_attached k :
  set_key k s =
  (set_box s l {| box_state := box_state b; box_key := k |}, Returns tt).
Proof. unfold set_key, bind, get, deref, put. by rewrite Hl, Hb. Qed.

Lemma set_state_attached st :
  set_state st s =
  (set_box s l {| box_state := st; box_key := box_key b |}, Returns tt).
Proof. unfold set_state, bind, get, deref, put. by rewrite Hl, Hb. Qed.

End Attached.

(** ** C4: mid-computation measurements *)

Lemma measure_prim_handler_attached (s : St) l b invals reset postselect :
  stateref (self s) = Some l -> heap s !! l = Some b ->
  measure_prim_handler invals reset postselect s =
  match apply_mid_measure
          {| mm_wires := invals; mm_reset := reset; mm_postselect := postselect |}
          (Some (box_state b)) (snd (split (box_key b))) with
  | Raise e =>
      (set_box s l {| box_state := box_state b; box_key := fst (split (box_key b)) |},
       Raises e)
  | Ok (st', None) =>
      (set_box s l {| box_state := st'; box_key := fst (split (box_key b)) |},
       Raises KeyError)
  | Ok (st', Some v) =>
      (set_box s l {| box_state := st'; box_key := fst (split (box_key b)) |},
       Returns v)
  end.
Proof.
  intros Hl Hb. unfold measure_prim_handler.
  unfold bind at 1. rewrite (get_key_attached s l b Hl Hb).
  unfold bind at 1. rewrite (set_key_attached s l b Hl Hb).
  set (b1 := {| box_state := box_state b; box_key := fst (split (box_key b)) |}).
  assert (heap (set_box s l b1) !! l = Some b1) as Hb1 by by eapply set_box_lookup.
  unfold bind at 1. rewrite (get_state_attached (set_box s l b1) l b1 Hl Hb1).
  unfold bind at 1. simpl box_state.
  destruct (apply_mid_measure _ _ _) as [[st' o]|e]; simpl; [|done].
  unfold bind. rewrite (set_state_attached (set_box s l b1) l b1 Hl Hb1).
  rewrite set_box_set_box. simpl. by destruct o.
Qed.

Lemma measure_each_expected mps : forall i k st (s : St) l,
  stateref (self s) = Some l ->
  heap s !! l = Some {| box_state := st; box_key := stream_key k i |} ->
  measure_each mps s =
  (set_box s l (expected_outcomes k i st mps).1, (expected_outcomes k i st mps).2).
Proof.
  induction mps as [|[[invals reset] postselect] mps IH]; intros i k st s l Hl Hb.
  - simpl. by rewrite set_box_id.
  - cbn [measure_each expected_outcomes]. unfold bind at 1.
    rewrite (measure_prim_handler_attached s l _ invals reset postselect Hl Hb).
    cbn [box_state box_key]. fold (draw_key k i).
    change (fst (split (stream_key k i))) with (stream_key k (S i)).
    destruct (apply_mid_measure _ _ _) as [[st' [v|]]|e]; [|done..].
    unfold bind at 1.
    rewrite (IH (S i) k st' _ l); [|done|by eapply set_box_lookup].
    rewrite set_box_set_box.
    by destruct (expected_outcomes k (S i) st' mps) as [b' [vs| |]].
Qed.

Lemma derive_app k p q : derive k (p ++ q) = derive (derive k p) q.
Proof. revert k. induction p as [|h p IH]; intros k; [done | apply IH]. Qed.

Lemma stream_key_derive k i : stream_key k i = derive k (replicate i false).
Proof.
  induction i as [|i IH]; [done|].
  rewrite replicate_S_end, derive_app. simpl. by rewrite IH.
Qed.

Lemma draw_key_derive k i : draw_key k i = derive k (replicate i false ++ [true]).
Proof. unfold draw_key. by rewrite derive_app, stream_key_derive. Qed.

(** C4.  In a frame attached to a dictionary holding state and key [k]:
    a mid-computation measurement splits [k] once, leaves the first half
    as the dictionary's key, hands the second half with the state to the
    operation-application collaborator, stores the state it returns and
    returns the outcome it recorded; successive measurements therefore
    sample with the keys [draw_key k 0], [draw_key k 1], ... and their
    outcomes are a function of the dictionary's initial content alone,
    the same in every frame and run that starts from it; and when no two
    split paths from [k] meet, no two draws share a key and no key held
    by the dictionary is ever sampled with. *)
Theorem mid_measurement_key_discipline (s : St) l b :
  stateref (self s) = Some l -> heap s !! l = Some b ->
  (forall invals reset postselect,
      measure_prim_handler invals reset postselect s =
      match apply_mid_measure
              {| mm_wires := invals; mm_reset := reset; mm_postselect := postselect |}
              (Some (box_state b)) (snd (split (box_key b))) with
      | Raise e =>
          (set_box s l {| box_state := box_state b;
                          box_key := fst (split (box_key b)) |}, Raises e)
      | Ok (st', None) =>
          (set_box s l {| box_state := st'; box_key := fst (split (box_key b)) |},
           Raises KeyError)
      | Ok (st', Some v) =>
          (set_box s l {| box_state := st'; box_key := fst (split (box_key b)) |},
           Returns v)
      end) /\
  (forall mps,
      measure_each mps s =
      (set_box s l (expected_outcomes (box_key b) 0 (box_state b) mps).1,
       (expected_outcomes (box_key b) 0 (box_state b) mps).2)) /\
  (forall mps (s2 : St) l2,
      stateref (self s2) = Some l2 -> heap s2 !! l2 = Some b ->
      (measure_each mps s2).2 = (measure_each mps s).2) /\
  (collision_free (box_key b) ->
   forall i j,
     (i <> j -> draw_key (box_key b) i <> draw_key (box_key b) j) /\
     (i <> j -> stream_key (box_key b) i <> stream_key (box_key b) j) /\
     draw_key (box_key b) i <> stream_key (box_key b) j).
Proof using apply_mid_measure split.
  intros Hl Hb.
  assert (forall (s' : St) l', stateref (self s') = Some l' -> heap s' !! l' = Some b ->
            forall mps, measure_each mps s' =
              (set_box s' l' (expected_outcomes (box_key b) 0 (box_state b) mps).1,
               (expected_outcomes (box_key b) 0 (box_state b) mps).2)) as Hrun.
  { intros s' l' Hl' Hb' mps. apply measure_each_expected; [done|].
    simpl. by destruct b. }
  split; [|split; [|split]].
  - intros. by apply measure_prim_handler_attached.
  - by apply Hrun.
  - intros mps s2 l2 Hl2 Hb2. by rewrite (Hrun s2 l2), (Hrun s l).
  - intros Hfree i j. rewrite !draw_key_derive, !stream_key_derive.
    repeat split.
    + intros Hij Heq. apply Hfree, app_inj_tail in Heq as [Heq _].
      apply (f_equal length) in Heq. by rewrite !length_replicate in Heq.
    + intros Hij Heq. apply Hfree in Heq.
      apply (f_equal length) in Heq. by rewrite !length_replicate in Heq.
    + intros Heq. apply Hfree in Heq.
      assert (true ∈ replicate j false) as Hin
        by (rewrite <- Heq; apply elem_of_app; right; constructor).
      by apply elem_of_replicate in Hin as [? _].
Qed.

(** ** C5: the conditional loop *)

(** C5.  The conditional-loop handler is its [while] statement on the
    sliced constants and initial arguments.  Each trip first evaluates the
    condition in a new child frame on the current carried arguments: when
    its first output is false the loop stops in the state the condition
    frame left, returning the carried arguments as they are, whatever the
    body is (so on the first test, the initial arguments, the body never
    run); when it is true the body is evaluated in a new child frame and
    the loop goes on with its outputs. *)
Theorem while_loop_tests_before_each_trip
    ev fuel body cond cb cc fn_res (s s1 : St) c0 c :
  copy_eval ev cond cc fn_res s = (s1, Returns (c0 :: c)) ->
  (forall invals bs cs asl,
      while_loop_prim_handler ev (S fuel) invals body cond bs cs asl =
      while_loop_iter ev (S fuel) body cond (slice_of invals bs) (slice_of invals cs)
        (slice_of invals asl)) /\
  (truth c0 = Ok false ->
      while_loop_iter ev (S fuel) body cond cb cc fn_res s = (s1, Returns fn_res)) /\
  (truth c0 = Ok true ->
      while_loop_iter ev (S fuel) body cond cb cc fn_res s =
      (fn_res' <- copy_eval ev body cb fn_res ;;
       while_loop_iter ev fuel body cond cb cc fn_res') s1).
Proof.
  intros Hc. split; [done|].
  split; intros Ht; simpl; unfold bind at 1; rewrite Hc; simpl;
    unfold bind at 1; simpl; unfold bind at 1; rewrite Ht; done.
Qed.

(** ** C6: the multi-way branch *)

Lemma cond_iter_passed_over ev invals args pre rest (s : St) :
  Forall passed_over pre ->
  cond_iter ev invals args (pre ++ rest) s = cond_iter ev invals args rest s.
Proof.
  induction 1 as [|[[pred jo] sl] pre Hbr _ IH]; [done|].
  simpl. unfold bind. destruct Hbr as [Ht|[Ht Hj]]; simpl in Ht; rewrite Ht; simpl.
  - done.
  - simpl in Hj. by rewrite Hj.
Qed.

(** C6.  Over the triples zipped from the leading predicates, the
    branches and the constant slices: when the triples before one with a
    true predicate and a body present are all passed over, the handler
    evaluates that body, and nothing else, in a new child frame on its
    constants and the shared arguments and returns its outputs, whatever
    the later triples are; when all triples are passed over, it changes
    nothing and returns the empty tuple. *)
Theorem cond_first_true_branch ev invals branches slices asl (s : St) :
  (forall pre pred j sl post,
      zip (zip (take (length branches) invals) branches) slices =
        pre ++ (pred, Some j, sl) :: post ->
      Forall passed_over pre ->
      truth pred = Ok true ->
      cond_prim_handler ev invals branches slices asl s =
      copy_eval ev j (slice_of invals sl) (slice_of invals asl) s) /\
  (Forall passed_over (zip (zip (take (length branches) invals) branches) slices) ->
   cond_prim_handler ev invals branches slices asl s = (s, Returns [])).
Proof.
  unfold cond_prim_handler. split.
  - intros pre pred j sl post -> Hpre Ht.
    rewrite cond_iter_passed_over by done.
    simpl. unfold bind. by rewrite Ht.
  - intros Hall.
    rewrite <- (app_nil_r (zip _ slices)).
    by rewrite cond_iter_passed_over.
Qed.

(** ** C7 and C8: terminal measurements *)

Section Detached.

Variable s : St.
Hypothesis Hl : stateref (self s) = None.

Lemma get_key_detached : get_key s = (s, Returns (initial_key (self s))).
Proof. unfold get_key, bind, get, ret. by rewrite Hl. Qed.

Lemma get_state_detached : get_state s = (s, Returns None).
Proof. unfold get_state, bind, get, ret. by rewrite Hl. Qed.

Lemma set_key_detached k :
  set_key k s = (s, Raises (AttributeError "execution not yet initialized."%string)).
Proof. unfold set_key, bind, get, raise. by rewrite Hl. Qed.

Lemma set_state_detached st :
  set_state st s = (s, Raises (AttributeError "execution not yet initialized."%string)).
Proof. unfold set_state, bind, get, raise. by rewrite Hl. Qed.

End Detached.

Lemma get_key_dangling (s : St) l :
  stateref (self s) = Some l -> heap s !! l = None ->
  get_key s = (s, Raises StoreFault).
Proof. intros Hl Hb. unfold get_key, bind, get, deref. by rewrite Hl, Hb. Qed.

Lemma get_state_dangling (s : St) l :
  stateref (self s) = Some l -> heap s !! l = None ->
  get_state s = (s, Raises StoreFault).
Proof. intros Hl Hb. unfold get_state, bind, get, deref. by rewrite Hl, Hb. Qed.

(** [interpret_measurement] in closed form, in every state. *)
Lemma interpret_measurement_closed measure0 mws0 m (s : St) :
  interpret_measurement_with measure0 mws0 m s =
  match shots (self s), stateref (self s) with
  | None, None => (enabled s, outcome_of (measure0 false m None))
  | Some n, None =>
      (enabled s, Raises (AttributeError "execution not yet initialized."%string))
  | None, Some l =>
      match heap s !! l with
      | Some b => (enabled s, outcome_of (measure0 false m (Some (box_state b))))
      | None => (enabled s, Raises StoreFault)
      end
  | Some n, Some l =>
      match heap s !! l with
      | Some b =>
          (enabled (set_box s l {| box_state := box_state b;
                                   box_key := fst (split (box_key b)) |}),
           sampled mws0 m (Some (box_state b)) n (snd (split (box_key b))))
      | None => (enabled s, Raises StoreFault)
      end
  end.
Proof.
  unfold interpret_measurement_with. unfold bind at 1.
  change (disable s) with (disabled s, Returns tt).
  unfold try_finally. unfold bind at 1, get at 1. cbn beta iota.
  change (shots (self (disabled s))) with (shots (self s)).
  destruct (shots (self s)) as [n|], (stateref (self s)) as [l|] eqn:Hl.
  - destruct (heap s !! l) as [b|] eqn:Hb.
    + unfold bind at 1. rewrite (get_key_attached (disabled s) l b Hl Hb).
      unfold bind at 1. rewrite (set_key_attached (disabled s) l b Hl Hb).
      set (b1 := {| box_state := box_state b; box_key := fst (split (box_key b)) |}).
      assert (heap (set_box (disabled s) l b1) !! l = Some b1) as Hb1
        by by eapply set_box_lookup.
      unfold bind at 1.
      rewrite (get_state_attached (set_box (disabled s) l b1) l b1 Hl Hb1).
      unfold bind at 1. unfold get at 1. unfold bind at 1.
      cbn [capture_enabled set_box disabled box_state b1]. unfold sampled.
      destruct (mws0 _ _ _ _ _) as [[|v out]|e]; done.
    + unfold bind at 1. by rewrite (get_key_dangling (disabled s) l Hl Hb).
  - unfold bind at 1. rewrite (get_key_detached (disabled s) Hl).
    unfold bind at 1. by rewrite (set_key_detached (disabled s) Hl).
  - destruct (heap s !! l) as [b|] eqn:Hb.
    + unfold bind at 1. rewrite (get_state_attached (disabled s) l b Hl Hb).
      unfold bind at 1. unfold get at 1.
      cbn [capture_enabled disabled box_state]. by destruct (measure0 false m _).
    + unfold bind at 1. by rewrite (get_state_dangling (disabled s) l Hl Hb).
  - unfold bind at 1. rewrite (get_state_detached (disabled s) Hl).
    unfold bind at 1. unfold get at 1.
    cbn [capture_enabled disabled]. by destruct (measure0 false m None).
Qed.

(** C7.  In a frame attached to a dictionary holding a state and key [k],
    the shots configuration alone selects the mode.  With shots unset the
    result is what the analytic engine computes from the state; the
    dictionary, key included, is left as it was.  With a shot count [n] the
    key is split, the first half becomes the dictionary's key and the
    sampling engine is called with the second half on this measurement
    alone; a second terminal measurement then samples its own batch with
    the next key of the stream. *)
Theorem terminal_measurement_modes m (s : St) l b :
  stateref (self s) = Some l -> heap s !! l = Some b ->
  (shots (self s) = None ->
   interpret_measurement m s =
   (enabled s, outcome_of (measure false m (Some (box_state b))))) /\
  (forall n, shots (self s) = Some n ->
     interpret_measurement m s =
     (enabled (set_box s l {| box_state := box_state b;
                              box_key := fst (split (box_key b)) |}),
      sampled measure_with_samples m (Some (box_state b)) n (snd (split (box_key b))))) /\
  (forall n m2 v, shots (self s) = Some n ->
     sampled measure_with_samples m (Some (box_state b)) n (draw_key (box_key b) 0)
       = Returns v ->
     (v1 <- interpret_measurement m ;; interpret_measurement m2) s =
     (enabled (set_box s l {| box_state := box_state b;
                              box_key := stream_key (box_key b) 2 |}),
      sampled measure_with_samples m2 (Some (box_state b)) n (draw_key (box_key b) 1))).
Proof.
  intros Hl Hb. split; [|split].
  - intros Hs. by rewrite interpret_measurement_closed, Hs, Hl, Hb.
  - intros n Hs. by rewrite interpret_measurement_closed, Hs, Hl, Hb.
  - intros n m2 v Hs Hv. unfold bind.
    rewrite interpret_measurement_closed, Hs, Hl, Hb.
    unfold draw_key in Hv. simpl in Hv. rewrite Hv.
    rewrite interpret_measurement_closed. cbn [self enabled set_box heap].
    rewrite Hs, Hl.
    rewrite list_lookup_insert_eq by (by eapply lookup_lt_Some).
    cbn [box_state box_key]. unfold enabled, set_box. simpl.
    by rewrite list_insert_insert_eq.
Qed.

(** C8.  In every state a terminal measurement returns or raises with the
    capture switch on; the measurement engines run with the switch off
    (engines that agree with them under a disabled switch give the same
    result); and when the engine raises, the exception comes out with the
    switch on again. *)
Theorem capture_restored_on_every_exit m (s : St) :
  capture_enabled (interpret_measurement m s).1 = true /\
  (interpret_measurement m s).2 <> Diverges /\
  (forall measure0 mws0,
      (forall m' st, measure0 false m' st = measure false m' st) ->
      (forall ms st n k, mws0 false ms st n k = measure_with_samples false ms st n k) ->
      interpret_measurement_with measure0 mws0 m s = interpret_measurement m s) /\
  (forall l b e,
      stateref (self s) = Some l -> heap s !! l = Some b ->
      (shots (self s) = None -> measure false m (Some (box_state b)) = Raise e ->
       interpret_measurement m s = (enabled s, Raises e)) /\
      (forall n, shots (self s) = Some n ->
         measure_with_samples false [m] (Some (box_state b)) n (snd (split (box_key b)))
           = Raise e ->
         interpret_measurement m s =
         (enabled (set_box s l {| box_state := box_state b;
                                  box_key := fst (split (box_key b)) |}), Raises e))).
Proof.
  split; [|split; [|split]].
  - rewrite interpret_measurement_closed.
    destruct (shots (self s)), (stateref (self s)) as [l|];
      try destruct (heap s !! l); done.
  - rewrite interpret_measurement_closed. unfold sampled, outcome_of.
    destruct (shots (self s)), (stateref (self s)) as [l|];
      try destruct (heap s !! l); simpl;
      repeat match goal with
             | |- context [match ?x with _ => _ end] => destruct x
             end; done.
  - intros measure0 mws0 Hm Hs. rewrite !interpret_measurement_closed.
    unfold sampled. rewrite Hm.
    destruct (shots (self s)), (stateref (self s)) as [l|];
      try destruct (heap s !! l); by rewrite ?Hm, ?Hs.
  - intros l b e Hl Hb. split.
    + intros Hs He. by rewrite interpret_measurement_closed, Hs, Hl, Hb, He.
    + intros n Hs He. rewrite interpret_measurement_closed, Hs, Hl, Hb.
      unfold sampled. by rewrite He.
Qed.

(** ** C9: accesses with no dictionary attached *)

(** C9, amended.  With no dictionary attached, assigning to [state] or to
    [key] raises [AttributeError] and changes nothing; reading [state]
    returns [None] and reading [key] returns the initial key. *)
Theorem detached_accesses (s : St) :
  stateref (self s) = None ->
  (forall st, set_state st s =
     (s, Raises (AttributeError "execution not yet initialized."%string))) /\
  (forall k, set_key k s =
     (s, Raises (AttributeError "execution not yet initialized."%string))) /\
  get_state s = (s, Returns None) /\
  get_key s = (s, Returns (initial_key (self s))).
Proof.
  intros Hl. repeat split.
  - intros st. by apply set_state_detached.
  - intros k. by apply set_key_detached.
  - by apply get_state_detached.
  - by apply get_key_detached.
Qed.

(** ** Further properties of the attribute accesses *)

(** X1.  With a dictionary attached, [state] and [key] behave as two
    independent cells of it: a value written is the value read back, writing
    one leaves the other as it was, the two writes commute, and of two
    writes to the same cell the last one stands. *)
Theorem attribute_round_trip (s : St) l b :
  stateref (self s) = Some l -> heap s !! l = Some b ->
  (forall v, (set_state v ;;; get_state) s =
     (set_box s l {| box_state := v; box_key := box_key b |}, Returns (Some v))) /\
  (forall k, (set_key k ;;; get_key) s =
     (set_box s l {| box_state := box_state b; box_key := k |}, Returns k)) /\
  (forall v, (set_state v ;;; get_key) s =
     (set_box s l {| box_state := v; box_key := box_key b |}, Returns (box_key b))) /\
  (forall k, (set_key k ;;; get_state) s =
     (set_box s l {| box_state := box_state b; box_key := k |},
      Returns (Some (box_state b)))) /\
  (forall v k, (set_state v ;;; set_key k) s = (set_key k ;;; set_state v) s) /\
  (forall v v', (set_state v ;;; set_state v') s = set_state v' s) /\
  (forall k k', (set_key k ;;; set_key k') s = set_key k' s).
Proof.
  intros Hl Hb.
  assert (forall b', heap (set_box s l b') !! l = Some b') as Hset
    by (intros b'; by eapply set_box_lookup).
  repeat split; intros; unfold bind;
    rewrite ?(set_state_attached s l b Hl Hb), ?(set_key_attached s l b Hl Hb).
  - by rewrite (get_state_attached (set_box s l _) l _ Hl (Hset _)).
  - by rewrite (get_key_attached (set_box s l _) l _ Hl (Hset _)).
  - by rewrite (get_key_attached (set_box s l _) l _ Hl (Hset _)).
  - by rewrite (get_state_attached (set_box s l _) l _ Hl (Hset _)).
  - rewrite (set_key_attached (set_box s l _) l _ Hl (Hset _)),
      (set_state_attached (set_box s l _) l _ Hl (Hset _)).
    by rewrite !set_box_set_box.
  - rewrite (set_state_attached (set_box s l _) l _ Hl (Hset _)). by rewrite set_box_set_box.
  - rewrite (set_key_attached (set_box s l _) l _ Hl (Hset _)). by rewrite set_box_set_box.
Qed.

(** X2.  With no dictionary attached: [cleanup] changes nothing at all;
    [setup] followed by [cleanup] gives back the very same interpreter
    object, leaving behind in the store one dictionary with a fresh state
    and the initial key; and a second [setup] adds nothing to the first. *)
Theorem setup_cleanup_round_trip (s : St) :
  stateref (self s) = None ->
  cleanup s = (s, Returns tt) /\
  (setup ;;; cleanup) s =
    ({| self := self s;
        heap := heap s ++ [{| box_state := create_initial_state (num_wires (self s));
                              box_key := initial_key (self s) |}];
        capture_enabled := capture_enabled s |}, Returns tt) /\
  (setup ;;; setup) s = setup s.
Proof.
  intros Hl. split; [|split].
  - unfold cleanup, get_key, bind, get, put, ret. rewrite Hl.
    destruct s as [[nw sh ik sr] h c]. simpl in *. by subst.
  - unfold bind. rewrite (setup_detached s Hl).
    rewrite (cleanup_attached (attached s) (length (heap s)) _ eq_refl
               (list_lookup_middle _ _ _ _ eq_refl)).
    unfold with_self, attached, detached. simpl.
    destruct s as [[nw sh ik sr] h c]. simpl in *. by subst.
  - unfold bind. rewrite (setup_detached s Hl).
    by rewrite (setup_attached (attached s) (length (heap s))).
Qed.

(** ** Further properties of the operation and measurement handlers *)

(** X3.  With a dictionary attached, [interpret_operation] hands the
    operation and the current state to the operation-application
    collaborator; when that returns, its result replaces the state and the
    key is as before; when it raises, nothing has changed. *)
Theorem interpret_operation_writes_state_only (s : St) l b op :
  stateref (self s) = Some l -> heap s !! l = Some b ->
  interpret_operation op s =
  match apply_operation op (Some (box_state b)) with
  | Ok st' => (set_box s l {| box_state := st'; box_key := box_key b |}, Returns tt)
  | Raise e => (s, Raises e)
  end.
Proof.
  intros Hl Hb. unfold interpret_operation.
  unfold bind at 1. rewrite (get_state_attached s l b Hl Hb).
  unfold bind at 1.
  destruct (apply_operation op (Some (box_state b))) as [st'|e]; simpl; [|done].
  by rewrite (set_state_attached s l b Hl Hb).
Qed.

(** X4.  With no dictionary attached nothing can be run: applying an
    operation raises (the collaborator's exception when it rejects the
    absent state, [AttributeError] otherwise), a mid-computation measurement
    raises [AttributeError] before the collaborator is called, and a
    shot-based terminal measurement raises [AttributeError] without
    sampling; the interpreter object and the store are left as they were. *)
Theorem nothing_runs_detached (s : St) :
  stateref (self s) = None ->
  (forall op,
      interpret_operation op s =
      (s, Raises match apply_operation op None with
                 | Ok _ => AttributeError "execution not yet initialized."%string
                 | Raise e => e
                 end)) /\
  (forall invals reset postselect,
      measure_prim_handler invals reset postselect s =
      (s, Raises (AttributeError "execution not yet initialized."%string))) /\
  (forall m n, shots (self s) = Some n ->
      interpret_measurement m s =
      (enabled s, Raises (AttributeError "execution not yet initialized."%string))).
Proof.
  intros Hl. split; [|split].
  - intros op. unfold interpret_operation.
    unfold bind at 1. rewrite (get_state_detached s Hl).
    unfold bind at 1.
    destruct (apply_operation op None) as [st'|e]; simpl; [|done].
    by rewrite (set_state_detached s Hl).
  - intros invals reset postselect. unfold measure_prim_handler.
    unfold bind at 1. rewrite (get_key_detached s Hl).
    unfold bind at 1. by rewrite (set_key_detached s Hl).
  - intros m n Hs. by rewrite interpret_measurement_closed, Hs, Hl.
Qed.

(** ** Further properties of the measurement equations *)

Lemma substring_prefix_app sub post :
  String.substring 0 (String.length sub) (String.append sub post) = sub.
Proof.
  induction sub as [|a sub IH]; simpl.
  - by destruct post.
  - by rewrite IH.
Qed.

Lemma contains_infix sub pre post :
  contains sub (String.append pre (String.append sub post)) = true.
Proof.
  unfold contains. induction pre as [|a pre IH].
  - change (String.append "" (String.append sub post)) with (String.append sub post).
    destruct (String.append sub post) as [|c rest] eqn:E.
    + destruct sub; [done | discriminate].
    + cbn [String.index]. rewrite <- E.
      by rewrite (proj2 (String.prefix_correct sub (String.append sub post))
                    (substring_prefix_app sub post)).
  - change (String.append (String a pre) (String.append sub post))
      with (String a (String.append pre (String.append sub post))).
    cbn [String.index].
    destruct (String.prefix sub _); [done|].
    by destruct (String.index 0 sub _).
Qed.

Lemma substring_infix t : forall m s,
  String.substring m (String.length t) s = t ->
  exists pre post, s = String.append pre (String.append t post).
Proof.
  assert (forall t s, String.substring 0 (String.length t) s = t ->
                      exists post, s = String.append t post) as H0.
  { clear. induction t as [|a t IH]; intros s H.
    - by exists s.
    - destruct s as [|c s]; [discriminate|]. simpl in H.
      injection H as -> H. destruct (IH s H) as [post ->]. by exists post. }
  induction m as [|m IH]; intros s H.
  - destruct (H0 t s H) as [post ->]. by exists EmptyString, post.
  - destruct s as [|c s].
    + simpl in H. subst t. by exists EmptyString, EmptyString.
    + simpl in H. destruct (IH s H) as (pre & post & ->).
      by exists (String c pre), post.
Qed.

(** [contains sub name] is Python's [sub in name]. *)
Lemma contains_iff sub name :
  contains sub name = true <->
  exists pre post, name = String.append pre (String.append sub post).
Proof.
  split.
  - unfold contains. destruct (String.index 0 sub name) as [m|] eqn:E; [|done].
    intros _. apply String.index_correct1 in E. by eapply substring_infix.
  - intros (pre & post & ->). apply contains_infix.
Qed.

(** X5.  A measurement equation whose primitive name has ["mcm"] anywhere
    in it is rejected with [NotImplementedError] before its inputs are even
    read: the state, the key and the capture switch are as before, in
    either shots mode.  Every other name goes on to resolve the inputs and
    to [interpret_measurement]. *)
Theorem mcm_measurements_rejected name env ins (s : St) :
  ((exists pre post, name = String.append pre (String.append "mcm" post)) ->
   interpret_measurement_eqn name env ins s =
   (s, Raises (NotImplementedError
                 "DefaultQubitInterpreter does not yet support postprocessing mcms"))) /\
  (~ (exists pre post, name = String.append pre (String.append "mcm" post)) ->
   interpret_measurement_eqn name env ins s =
   (invals <- lift (read_all env ins) ;;
    interpret_measurement {| mp_name := name; mp_args := invals |}) s).
Proof.
  unfold interpret_measurement_eqn. split; intros H.
  - apply contains_iff in H. by rewrite H.
  - destruct (contains "mcm" name) eqn:E; [|done].
    apply contains_iff in E. contradiction.
Qed.

(** ** Further properties of the bounded loop *)

Lemma bind_assoc {A B C} (m : Eff St A) (k : A -> Eff St B) (h : B -> Eff St C) s :
  bind (bind m k) h s = bind m (fun a => bind (k a) h) s.
Proof. unfold bind. by destruct (m s) as [s1 [a| |]]. Qed.

Lemma bind_ext {A B} (m : Eff St A) (k k' : A -> Eff St B) s :
  (forall a s1, k a s1 = k' a s1) -> bind m k s = bind m k' s.
Proof. intros H. unfold bind. by destruct (m s) as [s1 [a| |]]. Qed.

Lemma for_loop_iter_app ev (body : Jaxpr) consts rng1 rng2 res (s : St) :
  for_loop_iter ev body consts (rng1 ++ rng2) res s =
  (res' <- for_loop_iter ev body consts rng1 res ;;
   for_loop_iter ev body consts rng2 res') s.
Proof.
  revert res s. induction rng1 as [|i rng1 IH]; intros res s; [done|].
  simpl. rewrite bind_assoc. apply bind_ext. intros res1 s1. apply IH.
Qed.

(** A range splits at any point [m] of its grid that is not past [stop]. *)
Lemma range_elems_split a b c (j : nat) :
  c <> 0 ->
  (if 0 <? c then a + Z.of_nat j * c <= b else b <= a + Z.of_nat j * c) ->
  range_elems a b c =
  range_elems a (a + Z.of_nat j * c) c ++ range_elems (a + Z.of_nat j * c) b c.
Proof.
  intros Hc0. revert a. induction j as [|j IH]; intros a Hm.
  - replace (a + Z.of_nat 0 * c) with a by lia.
    rewrite (range_elems_step a a c Hc0).
    unfold before_stop. rewrite Z.ltb_irrefl. by destruct (0 <? c).
  - replace (a + Z.of_nat (S j) * c) with (a + c + Z.of_nat j * c) in * by lia.
    specialize (IH (a + c)).
    rewrite (range_elems_step a b c Hc0),
      (range_elems_step a (a + c + Z.of_nat j * c) c Hc0).
    unfold before_stop.
    destruct (0 <? c) eqn:Hc; [apply Z.ltb_lt in Hc|apply Z.ltb_ge in Hc].
    + assert ((a <? b) = true) as -> by (apply Z.ltb_lt; nia).
      assert ((a <? a + c + Z.of_nat j * c) = true) as -> by (apply Z.ltb_lt; nia).
      simpl. f_equal. by apply IH.
    + assert ((b <? a) = true) as -> by (apply Z.ltb_lt; nia).
      assert ((a + c + Z.of_nat j * c <? a) = true) as -> by (apply Z.ltb_lt; nia).
      simpl. f_equal. by apply IH.
Qed.

(** X6.  A bounded loop can be cut at any index [m] of its grid that is not
    past [stop]: with the inputs laid out as the constants followed by the
    carried arguments, looping from [a] to [b] is looping from [a] to [m]
    and then, on the outputs of that, from [m] to [b]; an exception of the
    first part ends the whole. *)
Theorem for_loop_splits ev a b c (j : nat) consts args body (s : St) :
  c <> 0 ->
  (if 0 <? c then a + Z.of_nat j * c <= b else b <= a + Z.of_nat j * c) ->
  for_loop_prim_handler ev (VInt a) (VInt b) (VInt c) (consts ++ args) body
    (MkSlice 0 (Some (length consts))) (MkSlice (length consts) None) s =
  (res <- for_loop_prim_handler ev (VInt a) (VInt (a + Z.of_nat j * c)) (VInt c)
            (consts ++ args) body
            (MkSlice 0 (Some (length consts))) (MkSlice (length consts) None) ;;
   for_loop_prim_handler ev (VInt (a + Z.of_nat j * c)) (VInt b) (VInt c)
     (consts ++ res) body
     (MkSlice 0 (Some (length consts))) (MkSlice (length consts) None)) s.
Proof.
  intros Hc0 Hm. apply Z.eqb_neq in Hc0 as Hc0'.
  assert (forall xs : list Val,
             slice_of (consts ++ xs) (MkSlice 0 (Some (length consts))) = consts /\
             slice_of (consts ++ xs) (MkSlice (length consts) None) = xs) as Hsl.
  { intros xs. unfold slice_of. simpl. rewrite Nat.sub_0_r.
    change (drop 0 (consts ++ xs)) with (consts ++ xs).
    split; [by rewrite take_app_length | by rewrite drop_app_length]. }
  rewrite (for_loop_prim_handler_range ev (VInt a) (VInt b) (VInt c) a b c _ _ _ _ s
             eq_refl eq_refl eq_refl).
  rewrite Hc0'. destruct (Hsl args) as [-> ->].
  rewrite (range_elems_split a b c j Hc0 Hm), for_loop_iter_app.
  unfold bind.
  rewrite (for_loop_prim_handler_range ev (VInt a) (VInt (a + Z.of_nat j * c)) (VInt c)
             a (a + Z.of_nat j * c) c _ _ _ _ s eq_refl eq_refl eq_refl).
  rewrite Hc0'. destruct (Hsl args) as [-> ->].
  destruct (for_loop_iter ev body consts _ args s) as [s1 [res| |]]; [|done..].
  rewrite (for_loop_prim_handler_range ev (VInt (a + Z.of_nat j * c)) (VInt b) (VInt c)
             (a + Z.of_nat j * c) b c _ _ _ _ s1 eq_refl eq_refl eq_refl).
  rewrite Hc0'. by destruct (Hsl res) as [-> ->].
Qed.

(** X7.  A relation between carried arguments and machine state that every
    trip of the loop carries over, for the indices of the range, holds when
    the loop returns if it held at the start. *)
Theorem for_loop_invariant ev (P : list Val -> St -> Prop)
    start stop step a b c invals body cs asl (s s' : St) res :
  as_index start = Ok a -> as_index stop = Ok b -> as_index step = Ok c ->
  (forall i carried s0 s1 carried',
      i ∈ range_elems a b c -> P carried s0 ->
      copy_eval ev body (slice_of invals cs) (VInt i :: carried) s0
        = (s1, Returns carried') ->
      P carried' s1) ->
  P (slice_of invals asl) s ->
  for_loop_prim_handler ev start stop step invals body cs asl s = (s', Returns res) ->
  P res s'.
Proof.
  intros Ha Hb Hc Hstep Hinit.
  rewrite (for_loop_prim_handler_range ev _ _ _ _ _ _ _ _ _ _ s Ha Hb Hc).
  destruct (c =? 0); [done|].
  generalize dependent s. generalize (slice_of invals asl) as carried.
  induction (range_elems a b c) as [|i rng IH]; intros carried s Hinit.
  - by intros [= <- <-].
  - simpl. unfold bind.
    destruct (copy_eval ev body _ (VInt i :: carried) s) as [s1 [carried'| |]] eqn:E;
      [|done..].
    apply IH.
    + intros i' ca s0 s2 ca' Hi'. apply Hstep. by right.
    + eapply Hstep; [by left | exact Hinit | exact E].
Qed.

(** ** Further properties of the conditional loop and the branch *)

(** X8.  When the conditional loop returns, it returns carried arguments on
    which the condition has just been found false, in the state that last
    test left; and a relation between carried arguments and machine state
    that every full trip (a true test, then the body) carries over holds of
    the returned arguments and the state in which that last test began. *)
Theorem while_loop_exit ev (P : list Val -> St -> Prop)
    fuel body cond cb cc init (s s' : St) res :
  (forall carried s0 s1 c0 c s2 carried',
      P carried s0 ->
      copy_eval ev cond cc carried s0 = (s1, Returns (c0 :: c)) ->
      truth c0 = Ok true ->
      copy_eval ev body cb carried s1 = (s2, Returns carried') ->
      P carried' s2) ->
  P init s ->
  while_loop_iter ev fuel body cond cb cc init s = (s', Returns res) ->
  exists s0 c0 c,
    P res s0 /\
    copy_eval ev cond cc res s0 = (s', Returns (c0 :: c)) /\
    truth c0 = Ok false.
Proof.
  intros Hstep. revert init s.
  induction fuel as [|fuel IH]; intros init s Hinit; [done|].
  simpl. unfold bind at 1.
  destruct (copy_eval ev cond cc init s) as [s1 [[|c0 c]| |]] eqn:Ec; [done| |done..].
  unfold bind at 1. simpl. unfold bind at 1.
  destruct (truth c0) as [[]|e] eqn:Et; simpl; [| |done].
  - unfold bind at 1.
    destruct (copy_eval ev body cb init s1) as [s2 [carried'| |]] eqn:Eb; [|done..].
    apply IH. by eapply Hstep.
  - intros [= <- <-]. by exists s, c0, c.
Qed.

Lemma cond_iter_cases ev invals args brs (s : St) :
  cond_iter ev invals args brs s = (s, Returns []) \/
  (exists e, cond_iter ev invals args brs s = (s, Raises e)) \/
  (exists pred j sl,
      (pred, Some j, sl) ∈ brs /\
      cond_iter ev invals args brs s = copy_eval ev j (slice_of invals sl) args s).
Proof.
  induction brs as [|[[pred jo] sl] brs IH]; [by left|].
  simpl. unfold bind.
  destruct (truth pred) as [t|e]; simpl; [|right; left; by exists e].
  assert (cond_iter ev invals args brs s = (s, Returns []) \/
          (exists e, cond_iter ev invals args brs s = (s, Raises e)) \/
          (exists pred' j sl',
              (pred', Some j, sl') ∈ (pred, jo, sl) :: brs /\
              cond_iter ev invals args brs s =
              copy_eval ev j (slice_of invals sl') args s)) as IH'.
  { destruct IH as [H|[H|(p & j & sl' & Hin & H)]]; [by left | by right; left |].
    right; right. exists p, j, sl'. split; [by right | done]. }
  destruct t, jo as [j|]; try exact IH'.
  right; right. exists pred, j, sl. split; [by left | done].
Qed.

(** X9.  Whatever its inputs, the branch handler does one of three things:
    it returns the empty tuple and changes nothing; or it raises, on testing
    a predicate, and changes nothing; or it evaluates, in one child frame,
    exactly one body, one that is listed among the branches, on constants
    cut by one of the listed slices.  With no constant slices at all it
    returns the empty tuple. *)
Theorem cond_at_most_one_branch ev invals branches slices asl (s : St) :
  (cond_prim_handler ev invals branches slices asl s = (s, Returns []) \/
   (exists e, cond_prim_handler ev invals branches slices asl s = (s, Raises e)) \/
   (exists j sl,
       Some j ∈ branches /\ sl ∈ slices /\
       cond_prim_handler ev invals branches slices asl s =
       copy_eval ev j (slice_of invals sl) (slice_of invals asl) s)) /\
  cond_prim_handler ev invals branches [] asl s = (s, Returns []).
Proof.
  split.
  - unfold cond_prim_handler.
    destruct (cond_iter_cases ev invals (slice_of invals asl)
                (zip (zip (take (length branches) invals) branches) slices) s)
      as [H|[H|(pred & j & sl & Hin & H)]]; [by left | by right; left |].
    right; right. exists j, sl.
    split; [|split; [|done]].
    + apply elem_of_zip_l in Hin. by apply elem_of_zip_r in Hin.
    + by apply elem_of_zip_r in Hin.
  - unfold cond_prim_handler. by rewrite zip_with_nil_r.
Qed.

(** ** Further properties of the key stream *)

(** One draw, whatever comes of it, leaves the frame attached and has
    advanced the key once exactly when it is of a kind that splits. *)
Lemma draw_advances (s s1 : St) l b d r :
  stateref (self s) = Some l -> heap s !! l = Some b ->
  draw d s = (s1, r) ->
  self s1 = self s /\
  exists st1,
    heap s1 !! l =
    Some {| box_state := st1;
            box_key := if splits_key (shots (self s)) d
                       then fst (split (box_key b)) else box_key b |}.
Proof.
  intros Hl Hb. destruct d as [invals reset postselect|m]; simpl.
  - rewrite (measure_prim_handler_attached s l b _ _ _ Hl Hb).
    destruct (apply_mid_measure _ _ _) as [[st' [v|]]|e]; intros [= <- _];
      (split; [done|]); eexists; by eapply set_box_lookup.
  - rewrite interpret_measurement_closed, Hl, Hb.
    destruct (shots (self s)) as [n|]; intros [= <- _]; (split; [done|]).
    + eexists. simpl. by eapply list_lookup_insert_eq, lookup_lt_Some.
    + exists (box_state b). simpl. by destruct b.
Qed.

Lemma draws_stream k ds : forall i (s s' : St) l b r,
  stateref (self s) = Some l -> heap s !! l = Some b ->
  box_key b = stream_key k i ->
  draws ds s = (s', r) ->
  self s' = self s /\
  exists b' p,
    heap s' !! l = Some b' /\ box_key b' = stream_key k p /\
    (i <= p <= i + key_splits (shots (self s)) ds)%nat /\
    (forall vs, r = Returns vs ->
       p = (i + key_splits (shots (self s)) ds)%nat /\ length vs = length ds).
Proof.
  induction ds as [|d ds IH]; intros i s s' l b r Hl Hb Hk.
  - intros [= <- <-]. split; [done|]. exists b, i.
    split; [done|]. split; [done|]. split; [simpl; lia|].
    intros vs [= <-]. split; [simpl; lia | done].
  - cbn [draws key_splits]. unfold bind at 1.
    destruct (draw d s) as [s1 r1] eqn:Ed.
    destruct (draw_advances s s1 l b d r1 Hl Hb Ed) as (Hself & st1 & Hb1).
    set (i1 := (i + (if splits_key (shots (self s)) d then 1 else 0))%nat).
    assert (box_key {| box_state := st1;
                       box_key := if splits_key (shots (self s)) d
                                  then fst (split (box_key b)) else box_key b |}
            = stream_key k i1) as Hk1.
    { unfold i1. simpl. destruct (splits_key _ d).
      - rewrite Nat.add_1_r. simpl. by rewrite Hk.
      - by rewrite Nat.add_0_r. }
    assert (i <= i1 <= i + 1)%nat as Hi1
      by (unfold i1; destruct (splits_key _ d); lia).
    assert (i1 + key_splits (shots (self s)) ds =
            i + ((if splits_key (shots (self s)) d then 1 else 0)
                 + key_splits (shots (self s)) ds))%nat as Hsum
      by (unfold i1; lia).
    clearbody i1.
    destruct r1 as [v| |].
    + unfold bind at 1.
      destruct (draws ds s1) as [s2 r2] eqn:Eds.
      assert (stateref (self s1) = Some l) as Hl1 by by rewrite Hself.
      destruct (IH i1 s1 s2 l _ r2 Hl1 Hb1 Hk1 Eds)
        as (Hself2 & b' & p & Hb' & Hkp & Hp & Hret).
      rewrite Hself in Hp, Hret.
      assert (s' = s2 -> self s' = self s /\
              exists b' p,
                heap s' !! l = Some b' /\ box_key b' = stream_key k p /\
                (i <= p <= i + ((if splits_key (shots (self s)) d then 1 else 0)
                                + key_splits (shots (self s)) ds))%nat /\
                (forall vs, r2 = Returns vs ->
                   p = (i + ((if splits_key (shots (self s)) d then 1 else 0)
                             + key_splits (shots (self s)) ds))%nat /\
                   length vs = length ds)) as Hgoal.
      { intros ->. split; [congruence|]. exists b', p.
        split; [done|]. split; [done|]. split; [lia|].
        intros vs Hvs. destruct (Hret vs Hvs) as [-> ->]. split; [lia | done]. }
      destruct r2 as [vs| |]; intros [= <- <-];
        destruct (Hgoal eq_refl) as (Hs & b2 & p2 & H1 & H2 & H3 & H4);
        (split; [done|]); exists b2, p2;
        (split; [done|]); (split; [done|]); (split; [done|]).
      * intros vs' [= <-]. destruct (H4 vs eq_refl) as [-> Hlen].
        split; [done | simpl; by rewrite Hlen].
      * by intros vs'.
      * by intros vs'.
    + intros [= <- <-]. split; [done|]. eexists _, i1.
      split; [exact Hb1|]. split; [exact Hk1|]. split; [lia|]. by intros vs.
    + intros [= <- <-]. split; [done|]. eexists _, i1.
      split; [exact Hb1|]. split; [exact Hk1|]. split; [lia|]. by intros vs.
Qed.

(** X10.  Mid-computation and terminal measurements draw from one stream:
    after any sequence of them run in an attached frame that returns, the
    key of the dictionary is the seed advanced once for every
    mid-computation measurement and once for every terminal measurement
    under a shot count, and not at all for analytic ones; if the sequence
    raises instead, the key is still on that stream, no further along. *)
Theorem draws_share_one_stream ds (s s' : St) l b r :
  stateref (self s) = Some l -> heap s !! l = Some b ->
  draws ds s = (s', r) ->
  self s' = self s /\
  exists b' p,
    heap s' !! l = Some b' /\ box_key b' = stream_key (box_key b) p /\
    (p <= key_splits (shots (self s)) ds)%nat /\
    (forall vs, r = Returns vs ->
       p = key_splits (shots (self s)) ds /\ length vs = length ds).
Proof.
  intros Hl Hb Hd.
  destruct (draws_stream (box_key b) ds 0 s s' l b r Hl Hb eq_refl Hd)
    as (Hself & b' & p & Hb' & Hk & Hp & Hret).
  split; [done|]. exists b', p.
  split; [done|]. split; [done|]. split; [lia|].
  intros vs Hvs. by destruct (Hret vs Hvs).
Qed.

End InterpreterProperties.

(** * The interpreter on concrete programs *)

(** [range] and slicing on small inputs. *)
Example range_up : py_range 0 3 1 = Ok [0; 1; 2].
Proof. reflexivity. Qed.

Example range_down : py_range 5 0 (-2) = Ok [5; 3; 1].
Proof. reflexivity. Qed.

Example range_empty : py_range 2 2 1 = Ok [] /\ py_range 0 3 (-1) = Ok [].
Proof. split; reflexivity. Qed.

Example range_zero_step : py_range 0 3 0 = Raise ValueError.
Proof. reflexivity. Qed.

Example slice_consts_args :
  slice_of [10; 20; 30; 40] (MkSlice 0 (Some 1%nat)) = [10] /\
  slice_of [10; 20; 30; 40] (MkSlice 1 None) = [20; 30; 40] /\
  slice_of [10; 20; 30; 40] (MkSlice 3 (Some 2%nat)) = [].
Proof. repeat split. Qed.

(** With predicates [True, True] and the first body absent, the second
    branch is the one evaluated. *)
Example cond_absent_body_passed_over :
  cond_prim_handler Demo.arr_bool (Demo.eval 3) [VBool true; VBool true]
    [None; Some (Demo.branch "B2")]
    [MkSlice 2 (Some 2%nat); MkSlice 2 (Some 2%nat)] (MkSlice 2 None)
    (Demo.running None) =
  ({| self := self (Demo.running None);
      heap := [{| box_state := ["B2"%string]; box_key := [] |}];
      capture_enabled := true |},
   Returns []).
Proof. vm_compute. reflexivity. Qed.

(** A while loop counting from 0 to 3 applies [X] three times. *)
Example while_loop_runs :
  while_loop_prim_handler Demo.arr_bool (Demo.eval 3) 6 [VInt 0] Demo.while_body
    Demo.while_cond (MkSlice 0 (Some 0%nat)) (MkSlice 0 (Some 0%nat)) (MkSlice 0 None)
    (Demo.running None) =
  ({| self := self (Demo.running None);
      heap := [{| box_state := ["X"; "X"; "X"]%string; box_key := [] |}];
      capture_enabled := true |},
   Returns [VInt 3]).
Proof. vm_compute. reflexivity. Qed.

Lemma demo_split_derive k p : derive Demo.split k p = rev p ++ k.
Proof.
  revert k. induction p as [|h p IH]; intros k; [done|].
  simpl. rewrite IH. destruct h; simpl; by rewrite <- app_assoc.
Qed.

Lemma demo_split_collision_free k : collision_free Demo.split k.
Proof.
  intros p q. rewrite !demo_split_derive. intros H.
  apply app_inv_tail in H. apply (f_equal (@rev bool)) in H.
  by rewrite !rev_involutive in H.
Qed.

(** The unrolling law of section 8: three trips of the loop leave three
    rotations in the dictionary, where the terminal measurement of the
    parent frame reads them. *)
Example loop_program_runs :
  Demo.eval 5 Demo.loop_program [] [VInt 7] (Demo.fresh None) =
  ({| self := {| num_wires := 2; shots := None; initial_key := []; stateref := None |};
      heap := [{| box_state := ["RX"; "RX"; "RX"]%string; box_key := [] |}];
      capture_enabled := true |},
   Returns [VInt 3]).
Proof. vm_compute. reflexivity. Qed.

Lemma child_frames_share_the_box_witness :
  same_frame 0 (Demo.running None)
    (for_loop_prim_handler Demo.arr_index (Demo.eval 4) (VInt 0) (VInt 3) (VInt 1)
       [VInt 7] Demo.rx_body (MkSlice 0 (Some 0%nat)) (MkSlice 0 None)
       (Demo.running None)).1.
Proof.
  destruct (child_frames_share_the_box Demo.arr_index Demo.arr_bool
              Demo.create_initial_state Demo.apply_operation Demo.apply_mid_measure
              Demo.split Demo.measure Demo.measure_with_samples
              0%nat (Demo.running None) eq_refl) as (_ & _ & H).
  destruct (for_loop_prim_handler _ _ _ _ _ _ _ _ _ _) as [s' r] eqn:E.
  exact (proj1 (H 4%nat s' r) _ _ _ _ _ _ _ E).
Defined.

Lemma for_loop_classical_iteration_witness :
  for_loop_prim_handler Demo.arr_index (Demo.eval 4) (VInt 0) (VInt 3) (VInt 1)
    [VInt 7] Demo.rx_body (MkSlice 0 (Some 0%nat)) (MkSlice 0 None) (Demo.running None) =
  classical_iteration 3 0 3 1
    (fun i carried => copy_eval (Demo.eval 4) Demo.rx_body [] (VInt i :: carried))
    [VInt 7] (Demo.running None) /\
  for_loop_prim_handler Demo.arr_index (Demo.eval 4) (VInt 2) (VInt 2) (VInt 1)
    [VInt 7] Demo.rx_body (MkSlice 0 (Some 0%nat)) (MkSlice 0 None) (Demo.running None) =
  (Demo.running None, Returns [VInt 7]).
Proof.
  split.
  - refine (proj1 (for_loop_classical_iteration Demo.arr_index (Demo.eval 4)
                     (VInt 0) (VInt 3) (VInt 1) 0 3 1 [VInt 7] Demo.rx_body
                     (MkSlice 0 (Some 0%nat)) (MkSlice 0 None) (Demo.running None)
                     eq_refl eq_refl eq_refl) _ 3%nat _); [lia | vm_compute; lia].
  - refine (proj1 (proj2 (for_loop_classical_iteration Demo.arr_index (Demo.eval 4)
                     (VInt 2) (VInt 2) (VInt 1) 2 2 1 [VInt 7] Demo.rx_body
                     (MkSlice 0 (Some 0%nat)) (MkSlice 0 None) (Demo.running None)
                     eq_refl eq_refl eq_refl)) _ eq_refl); lia.
Defined.

(** C2 as stated fails for a step of zero: the handler raises [ValueError]
    where the claim has it return the initial carried arguments. *)
Lemma for_loop_zero_step_counterexample :
  for_loop_prim_handler Demo.arr_index (Demo.eval 4) (VInt 0) (VInt 3) (VInt 0)
    [VInt 7] Demo.rx_body (MkSlice 0 (Some 0%nat)) (MkSlice 0 None) (Demo.running None) =
  (Demo.running None, Raises ValueError) /\
  for_loop_prim_handler Demo.arr_index (Demo.eval 4) (VInt 0) (VInt 3) (VInt 0)
    [VInt 7] Demo.rx_body (MkSlice 0 (Some 0%nat)) (MkSlice 0 None) (Demo.running None) <>
  (Demo.running None, Returns [VInt 7]).
Proof. split; [vm_compute; reflexivity | vm_compute; discriminate]. Qed.

Lemma box_lifecycle_witness :
  exists b,
    heap (Demo.eval 5 Demo.loop_program [] [VInt 7] (Demo.fresh (Some 10%positive))).1
      = [b] /\
    self (Demo.eval 5 Demo.loop_program [] [VInt 7] (Demo.fresh (Some 10%positive))).1
      = {| num_wires := 2; shots := Some 10%positive; initial_key := box_key b;
           stateref := None |}.
Proof.
  destruct (box_lifecycle Demo.arr_index Demo.arr_bool Demo.create_initial_state
              Demo.apply_operation Demo.apply_mid_measure Demo.split Demo.measure
              Demo.measure_with_samples (Demo.fresh (Some 10%positive)))
    as (_ & _ & _ & H).
  destruct (Demo.eval 5 Demo.loop_program [] [VInt 7] (Demo.fresh (Some 10%positive)))
    as [s' r] eqn:E.
  assert (r = Returns [VInt 1]) as -> by (vm_compute in E; congruence).
  destruct (H 5%nat Demo.loop_program [] [VInt 7] s' [VInt 1] eq_refl E)
    as (b & Hheap & Hself & _).
  exists b. split; [exact Hheap | exact Hself].
Defined.

Lemma mid_measurement_key_discipline_witness :
  measure_each Demo.apply_mid_measure Demo.split
    [([VInt 0], false, None); ([VInt 0], false, None)] (Demo.running None) =
  (set_box (Demo.running None) 0
     {| box_state := ["measure"; "measure"]%string; box_key := [false; false] |},
   Returns [VBool true; VBool false]) /\
  draw_key Demo.split [] 0 <> draw_key Demo.split [] 1.
Proof.
  destruct (mid_measurement_key_discipline
              Demo.apply_mid_measure Demo.split (Demo.running None) 0%nat
              {| box_state := []; box_key := [] |} eq_refl eq_refl)
    as (_ & H2 & _ & H4).
  split.
  - rewrite H2. vm_compute. reflexivity.
  - exact (proj1 (H4 (demo_split_collision_free []) 0%nat 1%nat) ltac:(lia)).
Defined.

Lemma while_loop_tests_before_each_trip_witness :
  while_loop_prim_handler Demo.arr_bool (Demo.eval 3) 6 [VInt 5] Demo.while_body
    Demo.while_cond (MkSlice 0 (Some 0%nat)) (MkSlice 0 (Some 0%nat)) (MkSlice 0 None)
    (Demo.running None) =
  (Demo.running None, Returns [VInt 5]).
Proof.
  destruct (while_loop_tests_before_each_trip Demo.arr_bool (Demo.eval 3) 5
              Demo.while_body Demo.while_cond [] [] [VInt 5]
              (Demo.running None) (Demo.running None) (VBool false) [])
    as (H1 & H2 & _).
  - vm_compute. reflexivity.
  - rewrite H1. exact (H2 eq_refl).
Defined.

Lemma cond_first_true_branch_witness :
  cond_prim_handler Demo.arr_bool (Demo.eval 3)
    [VBool false; VBool true; VBool true]
    [Some (Demo.branch "B1"); Some (Demo.branch "B2"); Some (Demo.branch "B3")]
    [MkSlice 3 (Some 3%nat); MkSlice 3 (Some 3%nat); MkSlice 3 (Some 3%nat)]
    (MkSlice 3 None) (Demo.running None) =
  copy_eval (Demo.eval 3) (Demo.branch "B2") [] [] (Demo.running None) /\
  heap (copy_eval (Demo.eval 3) (Demo.branch "B2") [] [] (Demo.running None)).1 =
  [{| box_state := ["B2"%string]; box_key := [] |}].
Proof.
  split; [|vm_compute; reflexivity].
  refine (proj1 (cond_first_true_branch Demo.arr_bool (Demo.eval 3)
                   [VBool false; VBool true; VBool true]
                   [Some (Demo.branch "B1"); Some (Demo.branch "B2");
                    Some (Demo.branch "B3")]
                   [MkSlice 3 (Some 3%nat); MkSlice 3 (Some 3%nat);
                    MkSlice 3 (Some 3%nat)]
                   (MkSlice 3 None) (Demo.running None))
            [(VBool false, Some (Demo.branch "B1"), MkSlice 3 (Some 3%nat))]
            (VBool true) (Demo.branch "B2") (MkSlice 3 (Some 3%nat))
            [(VBool true, Some (Demo.branch "B3"), MkSlice 3 (Some 3%nat))]
            eq_refl _ eq_refl).
  constructor; [by left | constructor].
Defined.

Lemma terminal_measurement_modes_witness :
  interpret_measurement Demo.split Demo.measure Demo.measure_with_samples
    Demo.expval_z0 (Demo.running None) =
  (Demo.running None, Returns (VInt 0)) /\
  interpret_measurement Demo.split Demo.measure Demo.measure_with_samples
    Demo.expval_z0 (Demo.running (Some 10%positive)) =
  (set_box (Demo.running (Some 10%positive)) 0
     {| box_state := []; box_key := [false] |},
   Returns (VInt 1)).
Proof.
  split.
  - exact (proj1 (terminal_measurement_modes Demo.split Demo.measure
                    Demo.measure_with_samples Demo.expval_z0 (Demo.running None) 0%nat
                    {| box_state := []; box_key := [] |} eq_refl eq_refl) eq_refl).
  - exact (proj1 (proj2 (terminal_measurement_modes Demo.split Demo.measure
                    Demo.measure_with_samples Demo.expval_z0
                    (Demo.running (Some 10%positive)) 0%nat
                    {| box_state := []; box_key := [] |} eq_refl eq_refl))
             10%positive eq_refl).
Defined.

Lemma capture_restored_on_every_exit_witness :
  capture_enabled
    (interpret_measurement Demo.split Demo.measure Demo.measure_with_samples
       Demo.expval_z0 (Demo.fresh None)).1 = true /\
  (interpret_measurement Demo.split Demo.measure Demo.measure_with_samples
     Demo.expval_z0 (Demo.fresh None)).2 = Raises TypeError.
Proof.
  split; [|vm_compute; reflexivity].
  exact (proj1 (capture_restored_on_every_exit Demo.split Demo.measure
                  Demo.measure_with_samples Demo.expval_z0 (Demo.fresh None))).
Defined.

Lemma detached_accesses_witness :
  set_state ["X"%string] (Demo.fresh None) =
    (Demo.fresh None, Raises (AttributeError "execution not yet initialized.")) /\
  set_key [true] (Demo.fresh None) =
    (Demo.fresh None, Raises (AttributeError "execution not yet initialized.")).
Proof.
  destruct (detached_accesses (Demo.fresh None) eq_refl) as (H1 & H2 & _).
  split; [exact (H1 _) | exact (H2 _)].
Defined.

(** C9 as stated fails for the two reads: with no dictionary attached,
    reading [key] returns the initial key and reading [state] returns
    [None]; neither raises. *)
Lemma detached_reads_counterexample :
  get_key (Demo.fresh None) = (Demo.fresh None, Returns []) /\
  get_state (Demo.fresh None) = (Demo.fresh None, Returns None) /\
  (forall e, (get_key (Demo.fresh None)).2 <> Raises e) /\
  (forall e, (get_state (Demo.fresh None)).2 <> Raises e).
Proof. repeat split; intros; vm_compute; discriminate. Qed.

Lemma attribute_round_trip_witness :
  (set_state ["X"%string] ;;; get_state) (Demo.running None) =
    (set_box (Demo.running None) 0 {| box_state := ["X"%string]; box_key := [] |},
     Returns (Some ["X"%string])) /\
  (set_key [true] ;;; get_state) (Demo.running None) =
    (set_box (Demo.running None) 0 {| box_state := []; box_key := [true] |},
     Returns (Some [])).
Proof.
  destruct (attribute_round_trip (Demo.running None) 0%nat
              {| box_state := []; box_key := [] |} eq_refl eq_refl)
    as (H1 & _ & _ & H4 & _).
  split; [exact (H1 _) | exact (H4 _)].
Defined.

Lemma setup_cleanup_round_trip_witness :
  (setup Demo.create_initial_state ;;; cleanup) (Demo.fresh None) =
  ({| self := self (Demo.fresh None);
      heap := [{| box_state := []; box_key := [] |}];
      capture_enabled := true |}, Returns tt).
Proof.
  exact (proj1 (proj2 (setup_cleanup_round_trip Demo.create_initial_state
                         (Demo.fresh None) eq_refl))).
Defined.

Lemma interpret_operation_writes_state_only_witness :
  interpret_operation Demo.apply_operation
    {| op_name := "RX"; op_args := [VInt 1; VInt 0] |} (Demo.running None) =
  (set_box (Demo.running None) 0 {| box_state := ["RX"%string]; box_key := [] |},
   Returns tt).
Proof.
  exact (interpret_operation_writes_state_only Demo.apply_operation
           (Demo.running None) 0%nat {| box_state := []; box_key := [] |}
           {| op_name := "RX"; op_args := [VInt 1; VInt 0] |} eq_refl eq_refl).
Defined.

Lemma nothing_runs_detached_witness :
  interpret_operation Demo.apply_operation
    {| op_name := "RX"; op_args := [VInt 1; VInt 0] |} (Demo.fresh None) =
    (Demo.fresh None, Raises TypeError) /\
  measure_prim_handler Demo.apply_mid_measure Demo.split [VInt 0] false None
    (Demo.fresh None) =
    (Demo.fresh None, Raises (AttributeError "execution not yet initialized.")).
Proof.
  destruct (nothing_runs_detached Demo.apply_operation Demo.apply_mid_measure
              Demo.split Demo.measure Demo.measure_with_samples
              (Demo.fresh None) eq_refl) as (H1 & H2 & _).
  split; [exact (H1 _) | exact (H2 _ _ _)].
Defined.

Lemma mcm_measurements_rejected_witness :
  interpret_measurement_eqn Demo.split Demo.measure Demo.measure_with_samples
    "sample_mcm" ∅ [AVar 5%nat] (Demo.running (Some 10%positive)) =
  (Demo.running (Some 10%positive),
   Raises (NotImplementedError
             "DefaultQubitInterpreter does not yet support postprocessing mcms")).
Proof.
  refine (proj1 (mcm_measurements_rejected Demo.split Demo.measure
                   Demo.measure_with_samples "sample_mcm" ∅ [AVar 5%nat]
                   (Demo.running (Some 10%positive))) _).
  by exists "sample_"%string, ""%string.
Defined.

Lemma for_loop_splits_witness :
  for_loop_prim_handler Demo.arr_index (Demo.eval 4) (VInt 0) (VInt 3) (VInt 1)
    [VInt 7] Demo.rx_body (MkSlice 0 (Some 0%nat)) (MkSlice 0 None) (Demo.running None) =
  (res <- for_loop_prim_handler Demo.arr_index (Demo.eval 4) (VInt 0) (VInt 1) (VInt 1)
            [VInt 7] Demo.rx_body (MkSlice 0 (Some 0%nat)) (MkSlice 0 None) ;;
   for_loop_prim_handler Demo.arr_index (Demo.eval 4) (VInt 1) (VInt 3) (VInt 1)
     res Demo.rx_body (MkSlice 0 (Some 0%nat)) (MkSlice 0 None)) (Demo.running None).
Proof.
  refine (for_loop_splits Demo.arr_index (Demo.eval 4) 0 3 1 1%nat [] [VInt 7]
            Demo.rx_body (Demo.running None) _ _); [lia | simpl; lia].
Defined.

Lemma rx_body_trip i n :
  copy_eval (Demo.eval 4) Demo.rx_body [] [VInt i; VInt 7] (Demo.counted "RX" n) =
  (Demo.counted "RX" (S n), Returns [VInt 7]).
Proof. unfold Demo.counted. rewrite replicate_S_end. reflexivity. Qed.

Lemma for_loop_invariant_witness :
  exists n,
    (for_loop_prim_handler Demo.arr_index (Demo.eval 4) (VInt 0) (VInt 3) (VInt 1)
       [VInt 7] Demo.rx_body (MkSlice 0 (Some 0%nat)) (MkSlice 0 None)
       (Demo.counted "RX" 0)).1 = Demo.counted "RX" n.
Proof.
  destruct (for_loop_prim_handler Demo.arr_index (Demo.eval 4) (VInt 0) (VInt 3)
              (VInt 1) [VInt 7] Demo.rx_body (MkSlice 0 (Some 0%nat)) (MkSlice 0 None)
              (Demo.counted "RX" 0)) as [s' r] eqn:E.
  assert (r = Returns [VInt 7]) as -> by (vm_compute in E; congruence).
  refine (proj2 (for_loop_invariant Demo.arr_index (Demo.eval 4)
            (fun carried s => carried = [VInt 7] /\ exists n, s = Demo.counted "RX" n)
            (VInt 0) (VInt 3) (VInt 1) 0 3 1 [VInt 7] Demo.rx_body
            (MkSlice 0 (Some 0%nat)) (MkSlice 0 None) (Demo.counted "RX" 0) s'
            [VInt 7] eq_refl eq_refl eq_refl _ _ E)).
  - intros i carried s0 s1 carried' _ [-> [n ->]] H.
    change (slice_of [VInt 7] (MkSlice 0 (Some 0%nat))) with (@nil (@Val Z)) in H.
    rewrite rx_body_trip in H. injection H as <- <-. split; [done | by exists (S n)].
  - split; [done | by exists 0%nat].
Defined.

Lemma while_trip_cond z n :
  copy_eval (Demo.eval 3) Demo.while_cond [] [VInt z] (Demo.counted "X" n) =
  (Demo.counted "X" n, Returns [VBool (z <? 3)]).
Proof. reflexivity. Qed.

Lemma while_trip_body z n :
  copy_eval (Demo.eval 3) Demo.while_body [] [VInt z] (Demo.counted "X" n) =
  (Demo.counted "X" (S n), Returns [VInt (z + 1)]).
Proof. unfold Demo.counted. rewrite replicate_S_end. reflexivity. Qed.

Lemma while_loop_exit_witness :
  exists s0 c0 c,
    (exists n z, [VInt 3] = [@VInt Z z] /\ z <= 3 /\ s0 = Demo.counted "X" n) /\
    copy_eval (Demo.eval 3) Demo.while_cond [] [VInt 3] s0 =
      (Demo.counted "X" 3, Returns (c0 :: c)) /\
    truth Demo.arr_bool c0 = Ok false.
Proof.
  refine (while_loop_exit Demo.arr_bool (Demo.eval 3)
            (fun carried s =>
               exists n z, carried = [VInt z] /\ z <= 3 /\ s = Demo.counted "X" n)
            6 Demo.while_body Demo.while_cond [] [] [VInt 0]
            (Demo.counted "X" 0) (Demo.counted "X" 3) [VInt 3] _ _ _).
  - intros carried s0 s1 c0 c s2 carried' (n & z & -> & Hz & ->) Hc Ht Hb.
    rewrite while_trip_cond in Hc. injection Hc as <- <- <-.
    rewrite while_trip_body in Hb. injection Hb as <- <-.
    simpl in Ht. injection Ht as Ht. apply Z.ltb_lt in Ht.
    exists (S n), (z + 1). split; [done|]. split; [lia | done].
  - exists 0%nat, 0. split; [done|]. split; [lia | done].
  - vm_compute. reflexivity.
Defined.

Lemma draws_share_one_stream_witness :
  exists b',
    heap (draws Demo.apply_mid_measure Demo.split Demo.measure
            Demo.measure_with_samples
            [MidDraw [VInt 0] false None; TerminalDraw Demo.expval_z0;
             MidDraw [VInt 1] false None]
            (Demo.running (Some 10%positive))).1 !! 0%nat = Some b' /\
    box_key b' = stream_key Demo.split [] 3.
Proof.
  destruct (draws Demo.apply_mid_measure Demo.split Demo.measure
              Demo.measure_with_samples
              [MidDraw [VInt 0] false None; TerminalDraw Demo.expval_z0;
               MidDraw [VInt 1] false None]
              (Demo.running (Some 10%positive))) as [s' r] eqn:E.
  assert (exists vs, r = Returns vs) as [vs ->]
    by (vm_compute in E; injection E as _ <-; eauto).
  destruct (draws_share_one_stream Demo.apply_mid_measure Demo.split Demo.measure
              Demo.measure_with_samples
              [MidDraw [VInt 0] false None; TerminalDraw Demo.expval_z0;
               MidDraw [VInt 1] false None]
              (Demo.running (Some 10%positive)) s' 0%nat
              {| box_state := []; box_key := [] |} (Returns vs) eq_refl eq_refl E)
    as (_ & b' & p & Hb' & Hk & _ & Hret).
  destruct (Hret vs eq_refl) as [-> _].
  exists b'. split; [exact Hb' | exact Hk].
Defined.

(** * Properties of [map_wires] *)

Module MapWiresProperties.
Import MapWires.

Lemma relabel_empty (ws : list Wire) : relabel ∅ <$> ws = ws.
Proof.
  induction ws as [|w ws IH]; [done|].
  rewrite fmap_cons, IH. unfold relabel. by rewrite lookup_empty.
Qed.

(** Relabelling with the empty wire map gives back an equal operator. *)
Fixpoint op_map_wires_empty (op : Operator) : op_map_wires ∅ op = op.
Proof.
  destruct op as [n d ws ops]. simpl. f_equal; [apply relabel_empty|].
  induction ops as [|o ops IH]; [done|].
  simpl. f_equal; [apply op_map_wires_empty | exact IH].
Qed.

Section Queuing.

Context {Q : Type}.
Variable recording : Q -> bool.
Variable stop_recording : forall A, Eff Q A -> Eff Q A.
Variable remove : Obj -> Eff Q unit.
Variable apply : Obj -> Eff Q unit.

Abbreviation map_wires_obj := (map_wires_obj recording stop_recording remove apply).
Abbreviation map_wires := (map_wires recording stop_recording remove apply).

Lemma bind_step {A B} (m : Eff Q A) (k : A -> Eff Q B) (q q1 : Q) a :
  m q = (q1, Returns a) -> bind m k q = k a q1.
Proof. intros H. unfold bind. by rewrite H. Qed.

Lemma map_wires_obj_not_recording input wire_map queue replace (q : Q) :
  recording q = false ->
  map_wires_obj input wire_map queue replace q =
  (q, Returns (obj_map_wires wire_map input)).
Proof.
  intros Hrec. unfold map_wires_obj, MapWires.map_wires_obj, bind, get, ret.
  by rewrite Hrec.
Qed.

Lemma map_measurements_not_recording wire_map queue ms (q : Q) :
  recording q = false ->
  map_measurements recording stop_recording remove apply wire_map queue ms q =
  (q, Returns (map (mp_map_wires wire_map) ms)).
Proof.
  intros Hrec. induction ms as [|m ms IH]; [done|].
  cbn [map_measurements map].
  rewrite (bind_step _ _ _ _ _ (map_wires_obj_not_recording _ _ _ _ _ Hrec)).
  cbn [obj_map_wires as_mp lift].
  rewrite (bind_step _ _ q q (mp_map_wires wire_map m) eq_refl).
  by rewrite (bind_step _ _ _ _ _ IH).
Qed.

(** Outside of recording the tape transform is the relabelling of the tape
    and leaves the queuing state as it was. *)
Fixpoint map_wires_transform_not_recording wire_map queue (q : Q)
    (Hrec : recording q = false) (tape : QuantumScript) {struct tape} :
  _map_wires_transform recording stop_recording remove apply tape wire_map queue q =
  (q, Returns (tape_map_wires wire_map tape)).
Proof.
  destruct tape as [ops ms sh tp]. simpl.
  match goal with
  | |- bind (?f ops) _ q = _ =>
      assert (f ops q =
              (q, Returns
                    (map (fun item =>
                            match item with
                            | ItemOp op => ItemOp (op_map_wires wire_map op)
                            | ItemTape t => ItemTape (tape_map_wires wire_map t)
                            end) ops))) as Hops
  end.
  { induction ops as [|[op|t] ops IH].
    - done.
    - cbn -[bind MapWires.map_wires_obj MapWires._map_wires_transform].
      rewrite (bind_step _ _ _ _ _ (map_wires_obj_not_recording _ _ _ _ _ Hrec)).
      cbn [obj_map_wires as_op lift].
      rewrite (bind_step _ _ q q (op_map_wires wire_map op) eq_refl).
      by rewrite (bind_step _ _ _ _ _ IH).
    - cbn -[bind MapWires.map_wires_obj MapWires._map_wires_transform].
      rewrite (bind_step _ _ _ _ _
                 (map_wires_transform_not_recording wire_map queue q Hrec t)).
      by rewrite (bind_step _ _ _ _ _ IH). }
  rewrite (bind_step _ _ _ _ _ Hops).
  by rewrite (bind_step _ _ _ _ _ (map_measurements_not_recording _ _ _ _ Hrec)).
Qed.

(** C10.  Outside of recording, whatever the [queue] and [replace] flags,
    [map_wires] on an operator or a measurement process leaves the queuing
    state as it was and returns the relabelled object: same name and data,
    each wire replaced by its image under the wire map (itself when the map
    does not mention it), operands and observable relabelled alike; with
    the empty wire map the result equals the input. *)
Theorem map_wires_is_pure_relabelling
    (input : Obj) (wire_map : gmap Wire Wire) (queue replace : bool) (q : Q) :
  recording q = false ->
  map_wires (InObj input) wire_map queue replace q =
    (q, Returns (OutObj (obj_map_wires wire_map input))) /\
  match input, obj_map_wires wire_map input with
  | ObjOp op, ObjOp op' =>
      op_name op' = op_name op /\
      op_data op' = op_data op /\
      op_wires op' = relabel wire_map <$> op_wires op /\
      op_operands op' = op_map_wires wire_map <$> op_operands op
  | ObjMP mp, ObjMP mp' =>
      m_name mp' = m_name mp /\
      m_wires mp' = relabel wire_map <$> m_wires mp /\
      m_obs mp' = op_map_wires wire_map <$> m_obs mp
  | _, _ => False
  end /\
  (forall w w', wire_map !! w = Some w' -> relabel wire_map w = w') /\
  (forall w, wire_map !! w = None -> relabel wire_map w = w) /\
  obj_map_wires ∅ input = input.
Proof.
  intros Hrec. split; [|split; [|split; [|split]]].
  - unfold map_wires, MapWires.map_wires, MapWires.map_wires_obj, bind, get, ret.
    by rewrite Hrec.
  - destruct input as [[n d ws ops]|mp]; simpl; done.
  - intros w w' H. unfold relabel. by rewrite H.
  - intros w H. unfold relabel. by rewrite H.
  - destruct input as [op|[n o ws]]; simpl.
    + by rewrite op_map_wires_empty.
    + unfold mp_map_wires. simpl. rewrite relabel_empty.
      destruct o as [op|]; simpl; [by rewrite op_map_wires_empty | done].
Qed.

(** X11.  Outside of recording, [map_wires] on a tape leaves the queuing
    state as it was and returns a batch of exactly one tape, the input
    relabelled operation by operation (nested tapes through and through)
    and measurement by measurement, with the input's shots and trainable
    parameters; the postprocessing function applied to the results of that
    batch gives the result of its one tape. *)
Theorem tape_transform_outside_recording
    (t : QuantumScript) (wire_map : gmap Wire Wire) (queue replace : bool) (q : Q) :
  recording q = false ->
  map_wires (InTape t) wire_map queue replace q =
    (q, Returns (OutBatch [tape_map_wires wire_map t])) /\
  operations (tape_map_wires wire_map t) =
    map (fun item => match item with
                     | ItemOp op => ItemOp (op_map_wires wire_map op)
                     | ItemTape t' => ItemTape (tape_map_wires wire_map t')
                     end) (operations t) /\
  measurements (tape_map_wires wire_map t) =
    map (mp_map_wires wire_map) (measurements t) /\
  tape_shots (tape_map_wires wire_map t) = tape_shots t /\
  trainable_params (tape_map_wires wire_map t) = trainable_params t /\
  (forall (A : Type) (execute : QuantumScript -> A),
      processing_fn (map execute [tape_map_wires wire_map t]) =
      Ok (execute (tape_map_wires wire_map t))).
Proof.
  intros Hrec. split.
  - unfold map_wires, MapWires.map_wires.
    by rewrite (bind_step _ _ _ _ _
                  (map_wires_transform_not_recording wire_map queue q Hrec t)).
  - by destruct t.
Qed.

Lemma bind_inv {A B} (m : Eff Q A) (k : A -> Eff Q B) (q q' : Q) b :
  bind m k q = (q', Returns b) ->
  exists a q1, m q = (q1, Returns a) /\ k a q1 = (q', Returns b).
Proof. unfold bind. destruct (m q) as [q1 [a| |]]; [eauto | done | done]. Qed.

Lemma map_measurements_length wire_map queue ms : forall (q q' : Q) ms',
  map_measurements recording stop_recording remove apply wire_map queue ms q =
    (q', Returns ms') ->
  length ms' = length ms.
Proof.
  induction ms as [|m ms IH]; intros q q' ms'.
  - by intros [= _ <-].
  - cbn [map_measurements].
    intros H. apply bind_inv in H as (o & q1 & _ & H).
    apply bind_inv in H as (m' & q2 & _ & H).
    apply bind_inv in H as (rest & q3 & Hrest & H).
    injection H as _ <-. simpl. f_equal. by eapply IH.
Qed.

(** X12.  In any queuing state and whatever the queuing operations do, a
    tape that [_map_wires_transform] returns has as many operations and as
    many measurements as the input, and the input's shots and trainable
    parameters. *)
Theorem tape_transform_keeps_shape
    (t t' : QuantumScript) (wire_map : gmap Wire Wire) (queue : bool) (q q' : Q) :
  _map_wires_transform recording stop_recording remove apply t wire_map queue q =
    (q', Returns t') ->
  length (operations t') = length (operations t) /\
  length (measurements t') = length (measurements t) /\
  tape_shots t' = tape_shots t /\
  trainable_params t' = trainable_params t.
Proof.
  destruct t as [ops ms sh tp]. cbn -[bind MapWires.map_wires_obj map_measurements].
  intros H. apply bind_inv in H as (ops' & q1 & Hops & H).
  apply bind_inv in H as (ms' & q2 & Hms & H).
  injection H as _ <-. simpl.
  split; [|split; [by eapply map_measurements_length | done]].
  clear Hms. revert q q1 ops' Hops.
  induction ops as [|[op|t0] ops IH]; intros q q1 ops'.
  - by intros [= _ <-].
  - cbn -[bind MapWires.map_wires_obj MapWires._map_wires_transform].
    intros H. apply bind_inv in H as (o & q2' & _ & H).
    apply bind_inv in H as (op' & q3 & _ & H).
    apply bind_inv in H as (rest & q4 & Hrest & H).
    injection H as _ <-. simpl. f_equal. by eapply IH.
  - cbn -[bind MapWires.map_wires_obj MapWires._map_wires_transform].
    intros H. apply bind_inv in H as (t1 & q2' & _ & H).
    apply bind_inv in H as (rest & q4 & Hrest & H).
    injection H as _ <-. simpl. f_equal. by eapply IH.
Qed.

(** X13.  With [queue] and [replace] both false, [map_wires] on an operator
    or a measurement process never calls [QueuingManager.remove] nor
    [qml.apply]: its result is the same whatever those two would do, and
    while recording it is the relabelling computed inside the
    stop-recording context. *)
Theorem map_wires_default_flags_never_queue
    (input : Obj) (wire_map : gmap Wire Wire) (q : Q) :
  (forall remove' apply',
      MapWires.map_wires_obj recording stop_recording remove' apply'
        input wire_map false false q =
      map_wires_obj input wire_map false false q) /\
  (recording q = true ->
   map_wires_obj input wire_map false false q =
   (new_op <- stop_recording _ (ret (obj_map_wires wire_map input)) ;;
    ret new_op) q).
Proof.
  split.
  - intros remove' apply'. unfold MapWires.map_wires_obj. done.
  - intros Hrec. unfold map_wires_obj, MapWires.map_wires_obj.
    unfold bind at 1. unfold get. rewrite Hrec.
    unfold bind. by destruct (stop_recording _ _ q) as [q1 [new_op| |]].
Qed.

End Queuing.

(** [qml.map_wires(RX(0.54, wires=0) + X(1), {0: 3, 1: 2})] *)
Lemma map_wires_is_pure_relabelling_witness :
  map_wires Demo.recording Demo.stop_recording Demo.remove Demo.apply
    (InObj (ObjOp (MkOperator "Sum" [] [WInt 0; WInt 1]
                     [MkOperator "RX" [54] [WInt 0] [];
                      MkOperator "PauliX" [] [WInt 1] []])))
    (<[WInt 0 := WInt 3]> (<[WInt 1 := WInt 2]> ∅)) false false None =
  (None,
   Returns (OutObj (ObjOp (MkOperator "Sum" [] [WInt 3; WInt 2]
                             [MkOperator "RX" [54] [WInt 3] [];
                              MkOperator "PauliX" [] [WInt 2] []])))).
Proof.
  etrans.
  - exact (proj1 (map_wires_is_pure_relabelling Demo.recording Demo.stop_recording
                    Demo.remove Demo.apply _ _ false false None eq_refl)).
  - vm_compute. reflexivity.
Defined.

Lemma tape_transform_outside_recording_witness :
  map_wires Demo.recording Demo.stop_recording Demo.remove Demo.apply
    (InTape Demo.nested_tape)
    (<[WInt 0 := WInt 3]> (<[WInt 1 := WInt 2]> ∅)) true false None =
  (None,
   Returns
     (OutBatch
        [MkTape
           [ItemOp (MkOperator "RX" [54] [WInt 3] []);
            ItemTape (MkTape [ItemOp (MkOperator "PauliX" [] [WInt 2] [])] [] None [])]
           [{| m_name := "probs"; m_obs := None; m_wires := [WInt 3] |}]
           (Some 100%positive) [0%nat]])).
Proof.
  etrans.
  - exact (proj1 (tape_transform_outside_recording Demo.recording Demo.stop_recording
                    Demo.remove Demo.apply Demo.nested_tape _ true false None
                    eq_refl)).
  - vm_compute. reflexivity.
Defined.

(** While recording with [queue=True] the relabelled operations are queued,
    and the tape returned has the shape of the input. *)
Lemma tape_transform_keeps_shape_witness :
  exists q' t',
    _map_wires_transform Demo.recording Demo.stop_recording Demo.remove Demo.apply
      Demo.nested_tape (<[WInt 0 := WInt 3]> (<[WInt 1 := WInt 2]> ∅)) true (Some [])
      = (q', Returns t') /\
    (exists queued, q' = Some queued /\ length queued = 3%nat) /\
    length (operations t') = 2%nat /\
    length (measurements t') = 1%nat /\
    tape_shots t' = Some 100%positive /\
    trainable_params t' = [0%nat].
Proof.
  destruct (_map_wires_transform Demo.recording Demo.stop_recording Demo.remove
              Demo.apply Demo.nested_tape
              (<[WInt 0 := WInt 3]> (<[WInt 1 := WInt 2]> ∅)) true (Some []))
    as [q' r] eqn:E.
  assert (exists t', r = Returns t' /\ exists queued, q' = Some queued /\
                                       length queued = 3%nat)
    as (t' & -> & Hq).
  { vm_compute in E. injection E as <- <-. eexists. split; [done|].
    eexists. split; done. }
  exists q', t'. split; [done|]. split; [exact Hq|].
  exact (tape_transform_keeps_shape Demo.recording Demo.stop_recording Demo.remove
           Demo.apply Demo.nested_tape t' _ true (Some []) q' E).
Defined.

End MapWiresProperties.
